(** * textsmith: the object resolver and the command parser

    A shallow embedding of [textsmith/logic.py] (the methods
    [get_attribute_value], [match_object] and [matches_name] of class
    [Logic]) together with the Python primitives they call, followed by the
    properties of the resolver and of the parser's dispatch.

    Layout: the first half holds the definitions (module [Py] for the Python
    built-ins, module [Logic] for the methods, module [Parser] for the command
    parser, module [Store] for the same resolver over a heap of mutable
    objects); the second half holds the lemmas and theorems. *)

From Stdlib Require Import ZArith NArith Ascii String List Bool Lia DecimalString
  DecimalPos.
From stdpp Require Import base option list gmap strings.

(* ===================================================================== *)
(** * Definitions                                                         *)
(* ===================================================================== *)

(** ** Python built-ins

    A Python [str] is a sequence of code points.  The model keeps the code
    points below 256 (one [ascii] each), on which [str.lower], [str.strip]
    and [str.split] act as written here. *)
Module Py.

Definition code (c : ascii) : N := N_of_ascii c.

(** [str.isspace] on one code point: U+0009..U+000D, U+001C..U+0020,
    U+0085 and U+00A0. *)
Definition isspace (c : ascii) : bool :=
  let n := code c in
  ((9 <=? n) && (n <=? 13) || (28 <=? n) && (n <=? 32)
   || (n =? 133) || (n =? 160))%N.

(** [str.isupper] on one code point: A..Z, and U+00C0..U+00DE without the
    multiplication sign U+00D7. *)
Definition isupper (c : ascii) : bool :=
  let n := code c in
  ((65 <=? n) && (n <=? 90)
   || (192 <=? n) && (n <=? 222) && negb (n =? 215))%N.

Definition lower_char (c : ascii) : ascii :=
  if isupper c then ascii_of_N (code c + 32) else c.

(** [s.lower()] *)
Fixpoint lower (s : string) : string :=
  match s with
  | EmptyString => EmptyString
  | String c r => String (lower_char c) (lower r)
  end.

(** [s.lstrip()], [s.rstrip()] and [s.strip()] *)
Fixpoint lstrip (s : string) : string :=
  match s with
  | EmptyString => EmptyString
  | String c r => if isspace c then lstrip r else s
  end.

Definition is_empty (s : string) : bool :=
  match s with EmptyString => true | String _ _ => false end.

Fixpoint rstrip (s : string) : string :=
  match s with
  | EmptyString => EmptyString
  | String c r =>
      let r' := rstrip r in
      if isspace c && is_empty r' then EmptyString else String c r'
  end.

Definition strip (s : string) : string := rstrip (lstrip s).

(** [s.split()]: the maximal runs of non-whitespace, in order.  [cur] is the
    word being read. *)
Fixpoint split_from (cur : string) (s : string) : list string :=
  match s with
  | EmptyString => if is_empty cur then [] else [cur]
  | String c r =>
      if isspace c
      then (if is_empty cur then split_from EmptyString r
            else cur :: split_from EmptyString r)
      else split_from (cur +:+ String c EmptyString) r
  end.

Definition split (s : string) : list string := split_from EmptyString s.

(** [sep.join(l)] *)
Fixpoint join (sep : string) (l : list string) : string :=
  match l with
  | [] => EmptyString
  | [x] => x
  | x :: r => x +:+ sep +:+ join sep r
  end.

(** [s.startswith(p)] *)
Fixpoint startswith (s p : string) : bool :=
  match p, s with
  | EmptyString, _ => true
  | String _ _, EmptyString => false
  | String a p', String b s' => bool_decide (a = b) && startswith s' p'
  end.

(** [s[1:]] *)
Definition tail (s : string) : string :=
  match s with EmptyString => EmptyString | String _ r => r end.

(** The exceptions the modelled code can raise. *)
Inductive exn : Type :=
  | KeyError | IndexError | ValueError | TypeError | AttributeError.

Inductive result (A : Type) : Type :=
  | Ok (a : A)
  | Raise (e : exn).
Arguments Ok {A} a.
Arguments Raise {A} e.

#[global] Instance result_ret : MRet result := fun A a => Ok a.
#[global] Instance result_bind : MBind result := fun A B f m =>
  match m with Ok a => f a | Raise e => Raise e end.

(** Decimal digits. *)
Definition digit_of (c : ascii) : option Z :=
  let n := code c in
  if ((48 <=? n) && (n <=? 57))%N then Some (Z.of_N n - 48)%Z else None.

Definition isdigit (c : ascii) : bool := bool_decide (is_Some (digit_of c)).

(** The digits of an integer literal as [int] reads them: single
    underscores are allowed between two digits.  [acc] is the value read so
    far, [us] tells that the previous character was an underscore. *)
Fixpoint int_digits (acc : Z) (us : bool) (s : string) : option Z :=
  match s with
  | EmptyString => if us then None else Some acc
  | String c r =>
      match digit_of c with
      | Some d => int_digits (10 * acc + d)%Z false r
      | None =>
          if bool_decide (c = "_"%char) && negb us && negb (is_empty r)
          then int_digits acc true r
          else None
      end
  end.

Definition int_unsigned (s : string) : option Z :=
  match s with
  | EmptyString => None
  | String c _ => if isdigit c then int_digits 0%Z false s else None
  end.

(** [int(s)] in base 10: surrounding whitespace is dropped, one sign is
    allowed, anything else raises [ValueError]. *)
Definition int (s : string) : result Z :=
  let s := strip s in
  let r :=
    match s with
    | String "+" r => int_unsigned r
    | String "-" r => Z.opp <$> int_unsigned r
    | _ => int_unsigned s
    end in
  match r with Some z => Ok z | None => Raise ValueError end.

(** [sys.int_info.default_max_str_digits]: CPython 3.11 and later read a
    numeral of at most this many digits, unless the interpreter is started
    with another limit, and raise [ValueError] on a longer one.  [int]
    above is the conversion itself, on numerals of any length; a statement
    that promises a number for digits somebody typed is made for numerals
    within the limit. *)
Definition default_max_str_digits : nat := 4300.

(** The values stored in the dictionaries of the resolver: [None], [bool],
    [int], [str] and lists of them. *)
#[warnings="-register-all"]
Inductive value : Type :=
  | VNone
  | VBool (b : bool)
  | VInt (z : Z)
  | VStr (s : string)
  | VList (l : list value).

(** [v == z] for an [int] z.  A [bool] is an [int] in Python. *)
Definition eq_int (v : value) (z : Z) : bool :=
  match v with
  | VInt i => bool_decide (i = z)
  | VBool b => bool_decide ((if b then 1 else 0)%Z = z)
  | _ => false
  end.

(** [v.lower()]: only a [str] has the method. *)
Definition value_lower (v : value) : result string :=
  match v with
  | VStr s => Ok (lower s)
  | _ => Raise AttributeError
  end.

(** The items a [for] loop or a comprehension draws from [v]: the elements
    of a list, the characters of a [str]; other values are not iterable. *)
Fixpoint chars (s : string) : list value :=
  match s with
  | EmptyString => []
  | String c r => VStr (String c EmptyString) :: chars r
  end.

Definition iter (v : value) : result (list value) :=
  match v with
  | VList l => Ok l
  | VStr s => Ok (chars s)
  | _ => Raise TypeError
  end.

(** [[f(x) for x in l]] for an [f] that may raise. *)
Fixpoint comprehension {A B : Type} (f : A -> result B) (l : list A)
  : result (list B) :=
  match l with
  | [] => Ok []
  | x :: r => y ← f x; ys ← comprehension f r; Ok (y :: ys)
  end.

(** [repr] and [str].  [repr] of a [str] picks the quote and escapes. *)
Definition hex_digit (n : N) : ascii :=
  if (n <? 10)%N then ascii_of_N (48 + n) else ascii_of_N (87 + n).

Definition isprintable (c : ascii) : bool :=
  let n := code c in
  ((32 <=? n) && (n <=? 126) || (161 <=? n) && negb (n =? 173))%N.

Fixpoint contains_char (c : ascii) (s : string) : bool :=
  match s with
  | EmptyString => false
  | String a r => bool_decide (a = c) || contains_char c r
  end.

Definition squote : ascii := "039"%char.
Definition dquote : ascii := "034"%char.
Definition backslash : ascii := "092"%char.

Fixpoint repr_chars (quote : ascii) (s : string) : string :=
  match s with
  | EmptyString => EmptyString
  | String c r =>
      let rest := repr_chars quote r in
      if bool_decide (c = quote) || bool_decide (c = backslash)
      then String backslash (String c rest)
      else if bool_decide (c = "009"%char) then String backslash (String "t" rest)
      else if bool_decide (c = "010"%char) then String backslash (String "n" rest)
      else if bool_decide (c = "013"%char) then String backslash (String "r" rest)
      else if isprintable c then String c rest
      else String backslash (String "x"
             (String (hex_digit (code c / 16)) (String (hex_digit (code c mod 16)) rest)))
  end.

Definition repr_str (s : string) : string :=
  let quote :=
    if contains_char squote s && negb (contains_char dquote s)
    then dquote else squote in
  String quote (repr_chars quote s) +:+ String quote EmptyString.

Definition str_int (z : Z) : string :=
  NilZero.string_of_int (Z.to_int z).

Definition str_bool (b : bool) : string := if b then "True" else "False".

Fixpoint repr (v : value) : string :=
  match v with
  | VNone => "None"
  | VBool b => str_bool b
  | VInt z => str_int z
  | VStr s => repr_str s
  | VList l => "[" +:+ join ", " (map repr l) +:+ "]"
  end.

(** [str(v)] *)
Definition str (v : value) : string :=
  match v with
  | VStr s => s
  | _ => repr v
  end.

(** *** Vocabulary of the statements *)

(** The string consists of whitespace only (the empty string included). *)
Fixpoint all_whitespace (s : string) : bool :=
  match s with
  | EmptyString => true
  | String c r => isspace c && all_whitespace r
  end.

(** The string consists of decimal digits only, and its value in base 10
    after the digits read so far, whose value is [acc]. *)
Fixpoint all_digits (s : string) : bool :=
  match s with
  | EmptyString => true
  | String c r => isdigit c && all_digits r
  end.

Fixpoint decimal_from (acc : Z) (s : string) : Z :=
  match s with
  | EmptyString => acc
  | String c r => decimal_from (10 * acc + default 0 (digit_of c))%Z r
  end.

Definition decimal (s : string) : Z := decimal_from 0 s.

End Py.

(** ** [textsmith/logic.py] *)
Module Logic.
Import Py.

(** An object of the world is a Python dictionary from attribute names to
    values. *)
Abbreviation Object := (gmap string value).

(** The constants of [textsmith/defaults.py] that the resolver reads.  That
    module is not part of the sources at hand, so its constants are taken as
    parameters: the two alias collections, the compiled pattern
    [MATCH_OBJECT_ID] (as the test [MATCH_OBJECT_ID.match(w) is not None]),
    the keys [NAME] and [ALIAS] and the script marker [IS_SCRIPT]. *)
Class Defaults : Type := {
  USER_ALIASES : list string;
  ROOM_ALIASES : list string;
  MATCH_OBJECT_ID : string -> bool;
  NAME : string;
  ALIAS : string;
  IS_SCRIPT : string;
}.

(** The context handed to [match_object]: the dictionary documented in
    [get_script_context], with its five keys as fields. *)
Record Context : Type := {
  user : Object;
  room : Object;
  exits : list Object;
  users : list Object;
  things : list Object;
}.

(** [obj[key]] *)
Definition getitem (obj : Object) (key : string) : result value :=
  match obj !! key with
  | Some v => Ok v
  | None => Raise KeyError
  end.

(** [obj.get(key, dflt)] *)
Definition get (obj : Object) (key : string) (dflt : value) : value :=
  default dflt (obj !! key).

Definition is_none (v : value) : bool :=
  match v with VNone => true | _ => false end.

Definition get_attribute_value `{Defaults} (obj : Object) (attribute : string)
  : string :=
  if bool_decide (is_Some (obj !! attribute)) then
    let val := get obj attribute VNone in
    if negb (is_none val) then
      let _ :=
        match val with
        | VStr s => if startswith (strip s) IS_SCRIPT then tt else tt
        | _ => tt
        end in
      str val
    else EmptyString
  else EmptyString.

Definition matches_name `{Defaults} (name : string) (obj : Object)
  : result bool :=
  let name := lower name in
  obj_name ← value_lower (get obj NAME (VStr EmptyString));
  if bool_decide (obj_name = name) then Ok true
  else
    items ← iter (get obj ALIAS (VList []));
    aliases ← comprehension value_lower items;
    if bool_decide (name ∈ aliases) then Ok true else Ok false.

(** [[obj for obj in objs if obj["id"] == object_id]] *)
Fixpoint with_id (object_id : Z) (objs : list Object) : result (list Object) :=
  match objs with
  | [] => Ok []
  | obj :: rest =>
      v ← getitem obj "id";
      found ← with_id object_id rest;
      Ok (if eq_int v object_id then obj :: found else found)
  end.

(** The inner loop of [match_object]: every candidate that matches [name] is
    appended to [matched_objects]. *)
Fixpoint collect `{Defaults} (name : string) (objs : list Object)
    (matched_objects : list Object) : result (list Object) :=
  match objs with
  | [] => Ok matched_objects
  | obj :: rest =>
      b ← matches_name name obj;
      collect name rest
        (if b : bool then matched_objects ++ [obj] else matched_objects)
  end.

(** The outer loop of [match_object] over the remaining [words]; [word_list]
    holds the words read so far. *)
Fixpoint scan `{Defaults} (candidate_objects : list Object)
    (words word_list : list string) (matched_objects : list Object)
  : result (list Object) :=
  match words with
  | [] => Ok matched_objects
  | word :: rest =>
      let word_list := word_list ++ [word] in
      let name := join " " word_list in
      matched_objects ← collect name candidate_objects matched_objects;
      match matched_objects with
      | _ :: _ => Ok matched_objects
      | [] => scan candidate_objects rest word_list matched_objects
      end
  end.

Definition candidate_objects (context : Context) : list Object :=
  [user context; room context] ++ exits context ++ users context
    ++ things context.

Definition match_object `{Defaults} (identifier : string) (context : Context)
  : result (list Object) :=
  let identifier := lower (strip identifier) in
  if is_empty identifier then Ok []
  else
    let words := split identifier in
    match words with
    | [] => Raise IndexError
    | first :: _ =>
        if bool_decide (first ∈ USER_ALIASES) then Ok [user context]
        else if bool_decide (first ∈ ROOM_ALIASES) then Ok [room context]
        else
          let candidate_objects := candidate_objects context in
          if MATCH_OBJECT_ID first then
            object_id ← int (tail first);
            with_id object_id candidate_objects
          else scan candidate_objects words [] []
    end.

(** *** Vocabulary of the statements *)

(** The display name [matches_name] reads: the value under [NAME], the empty
    string when the key is absent. *)
Definition display_name `{Defaults} (obj : Object) : value :=
  get obj NAME (VStr EmptyString).

(** The object's aliases: the value under [ALIAS], the empty list when the
    key is absent. *)
Definition alias_value `{Defaults} (obj : Object) : value :=
  get obj ALIAS (VList []).

(** An object is well typed for name matching when its display name is a
    [str] and its aliases are a list of [str]. *)
Definition named `{Defaults} (obj : Object) (nm : string) (als : list string)
  : Prop :=
  display_name obj = VStr nm /\ alias_value obj = VList (VStr <$> als).

Definition well_named `{Defaults} (obj : Object) : Prop :=
  exists nm als, named obj nm als.

(** An object carries an integer identifier. *)
Definition identified (obj : Object) : Prop :=
  exists z, obj !! "id" = Some (VInt z).

(** Case-insensitive equality of two strings. *)
Definition same_nocase (a b : string) : Prop := lower a = lower b.

#[global] Instance same_nocase_dec : RelDecision same_nocase :=
  fun a b => decide (lower a = lower b).

(** The specification's matching rule: [name] equals the display name, or is
    a member of the aliases, up to case. *)
Definition name_or_alias `{Defaults} (name : string) (obj : Object) : Prop :=
  exists nm als, named obj nm als /\
    (same_nocase name nm \/ exists a, a ∈ als /\ same_nocase name a).

(** The selection tests of the two candidate-pool branches, as the loops
    evaluate them on one object: the comparison of [obj["id"]] with the
    parsed number, and the outcome of [matches_name]. *)
Definition id_hit (object_id : Z) (obj : Object) : bool :=
  match obj !! "id" with
  | Some v => eq_int v object_id
  | None => false
  end.

Definition hit `{Defaults} (name : string) (obj : Object) : bool :=
  match matches_name name obj with
  | Ok b => b
  | Raise _ => false
  end.

(** The object's numeric identifier. *)
Definition object_id_of (obj : Object) : option Z :=
  match obj !! "id" with
  | Some (VInt z) => Some z
  | _ => None
  end.

(** The prefix of [k] words, joined by single spaces. *)
Definition prefix (k : nat) (words : list string) : string :=
  join " " (take k words).

(** The outcome of trying the prefixes of [k+1], ..., [k+n] words in turn:
    the candidates selected at the first of these lengths that selects any,
    the empty list when none does. *)
Fixpoint first_hit `{Defaults} (cands : list Object) (words : list string)
    (k n : nat) : list Object :=
  match n with
  | 0 => []
  | S n' =>
      match filter (fun obj => hit (prefix (S k) words) obj) cands with
      | [] => first_hit cands words (S k) n'
      | found => found
      end
  end.

(** The strings of a list of [str] values, when it is one. *)
Fixpoint strings_of (l : list value) : option (list string) :=
  match l with
  | [] => Some []
  | VStr s :: r => cons s <$> strings_of r
  | _ :: _ => None
  end.

(** The specification's matching rule as a test. *)
Definition name_or_alias_test `{Defaults} (name : string) (obj : Object) : bool :=
  match display_name obj, alias_value obj with
  | VStr nm, VList l =>
      match strings_of l with
      | Some als =>
          bool_decide (same_nocase name nm)
          || bool_decide (Exists (same_nocase name) als)
      | None => false
      end
  | _, _ => false
  end.

End Logic.

(** ** The command parser *)
Module Parser.
Import Py.

(** [textsmith/parser.py] (class [Parser] with [eval], [parse] and
    [handle_exception]), [textsmith/verbs.py] and [textsmith/constants.py]
    are not part of the sources at hand; only the parser's tests are.  The
    definitions of this module follow section 4.1 of the specification, with
    the names and the literal texts that [tests/test_parser.py] fixes. *)

(** The four shortcut handlers of the verb registry. *)
Inductive handler : Type := say | shout | emote | tell.

(** A call into the verb registry: a shortcut handler with
    [(user_id, connection_id, message_id, remainder)], or the registry itself
    with [(user_id, connection_id, message_id, verb, args)]. *)
Inductive call : Type :=
  | Shortcut (h : handler) (user_id : Z)
      (connection_id message_id remainder : string)
  | Verb (user_id : Z) (connection_id message_id verb args : string).

(** What a call can raise: the unknown-verb signal, or any other exception,
    kept with its text. *)
Inductive exception : Type :=
  | UnknownVerb
  | Exception (text : string).

(** One structured log entry of [handle_exception]. *)
Record log_entry : Type := {
  log_event : string;
  log_user_id : Z;
  log_connection_id : string;
  log_message_id : string;
  log_message : string;
  log_exc_info : exception;
}.

(** What the parser does to the outside: calls into the verb registry,
    messages emitted to a user, log entries. *)
Inductive event : Type :=
  | Dispatched (c : call)
  | Emitted (user_id : Z) (message : string)
  | Logged (entry : log_entry).

(** The events of a computation, in order, and the exception it ended with,
    if any. *)
Record outcome : Type := {
  trace : list event;
  raised : option exception;
}.

(** Modelled from the spec: [textsmith/verbs.py] and
    [textsmith/constants.py] are missing.  The collaborators of the parser
    are parameters: what the verb registry does on a call
    (its own events and whether it raises), the text of
    [constants.SYSTEM_OUTPUT] before and after its placeholder, the pool
    [constants.HUH] and the phrase the random source picks from it. *)
Class World : Type := {
  verbs : call -> outcome;
  SYSTEM_OUTPUT_before : string;
  SYSTEM_OUTPUT_after : string;
  HUH : list string;
  choice : list string -> string;
}.

(** [constants.SYSTEM_OUTPUT.format(text)] *)
Definition system_output `{World} (text : string) : string :=
  SYSTEM_OUTPUT_before +:+ text +:+ SYSTEM_OUTPUT_after.

(** [html.escape(s)] *)
Fixpoint html_escape (s : string) : string :=
  match s with
  | EmptyString => EmptyString
  | String c r =>
      let r' := html_escape r in
      if bool_decide (c = "&"%char) then "&amp;" +:+ r'
      else if bool_decide (c = "<"%char) then "&lt;" +:+ r'
      else if bool_decide (c = ">"%char) then "&gt;" +:+ r'
      else if bool_decide (c = dquote) then "&quot;" +:+ r'
      else if bool_decide (c = squote) then "&#x27;" +:+ r'
      else String c r'
  end.

(** The first whitespace-delimited token of a trimmed text, and what follows
    the first run of whitespace. *)
Fixpoint first_token (s : string) : string :=
  match s with
  | EmptyString => EmptyString
  | String c r => if isspace c then EmptyString else String c (first_token r)
  end.

Fixpoint after_token (s : string) : string :=
  match s with
  | EmptyString => EmptyString
  | String c r => if isspace c then lstrip r else after_token r
  end.

(** Modelled from the spec: the dispatch of [Parser.parse] is missing.
    Making a call: the call is recorded, then the registry runs. *)
Definition invoke `{World} (c : call) : outcome :=
  {| trace := Dispatched c :: trace (verbs c); raised := raised (verbs c) |}.

(** Modelled from the spec: the fallback of [Parser.parse] is missing.  The
    answer to an unknown verb is the quoted verb, a comma and one phrase of
    the pool, as [test_parse_last_resort] reads it. *)
Definition huh `{World} (verb : string) : string :=
  String dquote verb +:+ String dquote ", " +:+ choice HUH.

(** Modelled from the spec: [Parser.parse] is missing.  The text is
    trimmed; an empty text does nothing; the first character selects a
    shortcut in the order double quote, [!], [:], [@], each called with the
    text after that character; any other text is split into the verb and its
    arguments and goes to the registry, whose unknown-verb signal is answered
    with the fallback while any other exception propagates. *)
Definition parse `{World} (user_id : Z)
    (connection_id message_id message : string) : outcome :=
  let message := strip message in
  match message with
  | EmptyString => {| trace := []; raised := None |}
  | String c remainder =>
      if bool_decide (c = dquote) then
        invoke (Shortcut say user_id connection_id message_id remainder)
      else if bool_decide (c = "!"%char) then
        invoke (Shortcut shout user_id connection_id message_id remainder)
      else if bool_decide (c = ":"%char) then
        invoke (Shortcut emote user_id connection_id message_id remainder)
      else if bool_decide (c = "@"%char) then
        invoke (Shortcut tell user_id connection_id message_id remainder)
      else
        let verb := first_token message in
        let args := after_token message in
        let ran := invoke (Verb user_id connection_id message_id verb args) in
        match raised ran with
        | Some UnknownVerb =>
            {| trace := trace ran ++ [Emitted user_id (huh verb)];
               raised := None |}
        | _ => ran
        end
  end.

(** Modelled from the spec: [Parser.handle_exception] is missing.  The
    apology carries the message id, with the text [test_handle_exception]
    expects. *)
Definition apology (message_id : string) : string :=
  join " " ["Sorry. Something went wrong when processing your command.";
            "id: " +:+ message_id].

(** Modelled from the spec: [Parser.handle_exception] is missing.  It logs
    the event with the user id, the connection id, the message id, the raw
    message and the exception, then emits the apology as a system message. *)
Definition handle_exception `{World} (user_id : Z)
    (connection_id message_id message : string) (ex : exception)
  : list event :=
  [Logged {| log_event := "Exception.";
             log_user_id := user_id;
             log_connection_id := connection_id;
             log_message_id := message_id;
             log_message := message;
             log_exc_info := ex |};
   Emitted user_id (system_output (apology message_id))].

(** Modelled from the spec: [Parser.eval] is missing.  The input is
    escaped, [parse] runs on it under the fresh [message_id] (the value
    [uuid4] hands out, an argument here), and whatever [parse] raises ends in
    [handle_exception]. *)
Definition eval `{World} (user_id : Z) (connection_id message : string)
    (message_id : string) : outcome :=
  let ran := parse user_id connection_id message_id (html_escape message) in
  match raised ran with
  | None => ran
  | Some ex =>
      {| trace := trace ran
                    ++ handle_exception user_id connection_id message_id
                         message ex;
         raised := None |}
  end.

(** [needle] occurs in [text]. *)
Definition occurs_in (needle text : string) : Prop :=
  exists before after, text = before +:+ needle +:+ after.

End Parser.

(** ** The resolver over a store of mutable objects

    Python passes dictionaries and lists by reference, and the resolver
    builds its result with [list.append].  This module writes
    [matches_name] and [match_object] once more with the store made
    explicit: what the two methods allocate, read and write. *)
Module Store.
Import Py.

Abbreviation loc := positive.

(** A value is an immutable scalar or a reference to a mutable object. *)
Inductive val : Type :=
  | RNone
  | RBool (b : bool)
  | RInt (z : Z)
  | RStr (s : string)
  | Ref (l : loc).

#[global] Instance val_eq_dec : EqDecision val.
Proof. solve_decision. Defined.

(** A mutable object is a dictionary or a list. *)
Inductive cell : Type :=
  | Dict (d : gmap string val)
  | List (l : list val).

Abbreviation heap := (gmap loc cell).

(** Computations read and write the store and may raise. *)
Definition M (A : Type) : Type := heap -> result A * heap.

#[global] Instance M_ret : MRet M := fun A a h => (Ok a, h).
#[global] Instance M_bind : MBind M := fun A B f m h =>
  match m h with
  | (Ok a, h') => f a h'
  | (Raise e, h') => (Raise e, h')
  end.

Definition lift {A : Type} (r : result A) : M A := fun h => (r, h).

(** The object a value refers to, if it refers to one. *)
Definition cell_of (h : heap) (v : val) : option cell :=
  match v with
  | Ref l => h !! l
  | _ => None
  end.

(** A list display or a list built by [+] or by a comprehension: a new
    object at an unused location. *)
Definition new (c : cell) : M val := fun h =>
  let l := fresh (dom h) in (Ok (Ref l), <[l := c]> h).

(** [v[key]] *)
Definition getitem (v : val) (key : string) : M val := fun h =>
  match cell_of h v with
  | Some (Dict d) =>
      match d !! key with
      | Some x => (Ok x, h)
      | None => (Raise KeyError, h)
      end
  | _ => (Raise TypeError, h)
  end.

(** [v.get(key, dflt)] *)
Definition get (v : val) (key : string) (dflt : val) : M val := fun h =>
  match cell_of h v with
  | Some (Dict d) => (Ok (default dflt (d !! key)), h)
  | _ => (Raise AttributeError, h)
  end.

Fixpoint chars (s : string) : list val :=
  match s with
  | EmptyString => []
  | String c r => RStr (String c EmptyString) :: chars r
  end.

(** The items an iteration over [v] draws: the elements of a list, the
    characters of a [str], the keys of a dictionary (their order plays no
    role below: they only feed a membership test). *)
Definition items (v : val) : M (list val) := fun h =>
  match v with
  | RStr s => (Ok (chars s), h)
  | _ =>
      match cell_of h v with
      | Some (List l) => (Ok l, h)
      | Some (Dict d) => (Ok ((fun kv => RStr kv.1) <$> map_to_list d), h)
      | None => (Raise TypeError, h)
      end
  end.

(** The elements of a list object. *)
Definition elements (v : val) : M (list val) := fun h =>
  match cell_of h v with
  | Some (List l) => (Ok l, h)
  | _ => (Raise TypeError, h)
  end.

(** [a + b] on lists: a new list. *)
Definition concat (a b : val) : M val :=
  la ← elements a; lb ← elements b; new (List (la ++ lb)).

(** [v.append(x)]: the list object is updated in place. *)
Definition append (v x : val) : M unit := fun h =>
  match v with
  | Ref l =>
      match h !! l with
      | Some (List xs) => (Ok tt, <[l := List (xs ++ [x])]> h)
      | _ => (Raise AttributeError, h)
      end
  | _ => (Raise AttributeError, h)
  end.

(** [v == z] for an [int] z. *)
Definition eq_int (v : val) (z : Z) : bool :=
  match v with
  | RInt i => bool_decide (i = z)
  | RBool b => bool_decide ((if b then 1 else 0)%Z = z)
  | _ => false
  end.

(** [v.lower()] *)
Definition val_lower (v : val) : result string :=
  match v with
  | RStr s => Ok (lower s)
  | _ => Raise AttributeError
  end.

(** The strings [" ".join] reads from a list of values. *)
Fixpoint strings (l : list val) : result (list string) :=
  match l with
  | [] => Ok []
  | RStr s :: r => ss ← strings r; Ok (s :: ss)
  | _ :: _ => Raise TypeError
  end.

(** [[alias.lower() for alias in xs]], appended to the new list [out]. *)
Fixpoint lower_into (out : val) (xs : list val) : M unit :=
  match xs with
  | [] => mret tt
  | alias :: rest =>
      s ← lift (val_lower alias);
      _ ← append out (RStr s);
      lower_into out rest
  end.

Definition matches_name `{Logic.Defaults} (name : string) (obj : val) : M bool :=
  let name := lower name in
  v ← get obj Logic.NAME (RStr EmptyString);
  obj_name ← lift (val_lower v);
  if bool_decide (obj_name = name) then mret true
  else
    empty ← new (List []);
    stored ← get obj Logic.ALIAS empty;
    xs ← items stored;
    aliases ← new (List []);
    _ ← lower_into aliases xs;
    ys ← elements aliases;
    if bool_decide (RStr name ∈ ys) then mret true else mret false.

(** [[obj for obj in objs if obj["id"] == object_id]], appended to the new
    list [out]. *)
Fixpoint with_id (object_id : Z) (out : val) (objs : list val) : M unit :=
  match objs with
  | [] => mret tt
  | obj :: rest =>
      v ← getitem obj "id";
      _ ← (if eq_int v object_id then append out obj else mret tt);
      with_id object_id out rest
  end.

(** The inner loop of [match_object]. *)
Fixpoint collect `{Logic.Defaults} (name : string) (objs : list val)
    (matched_objects : val) : M unit :=
  match objs with
  | [] => mret tt
  | obj :: rest =>
      b ← matches_name name obj;
      _ ← (if b : bool then append matched_objects obj else mret tt);
      collect name rest matched_objects
  end.

(** The outer loop of [match_object] over the remaining [words]. *)
Fixpoint scan `{Logic.Defaults} (candidate_objects : val)
    (words : list string) (word_list matched_objects : val) : M val :=
  match words with
  | [] => mret matched_objects
  | word :: rest =>
      _ ← append word_list (RStr word);
      ws ← elements word_list;
      ss ← lift (strings ws);
      let name := join " " ss in
      objs ← elements candidate_objects;
      _ ← collect name objs matched_objects;
      found ← elements matched_objects;
      match found with
      | _ :: _ => mret matched_objects
      | [] => scan candidate_objects rest word_list matched_objects
      end
  end.

Definition match_object `{Logic.Defaults} (identifier : string) (context : val)
  : M val :=
  let identifier := lower (strip identifier) in
  if is_empty identifier then new (List [])
  else
    let words := split identifier in
    match words with
    | [] => lift (Raise IndexError)
    | first :: _ =>
        if bool_decide (first ∈ Logic.USER_ALIASES) then
          u ← getitem context "user"; new (List [u])
        else if bool_decide (first ∈ Logic.ROOM_ALIASES) then
          r ← getitem context "room"; new (List [r])
        else
          u ← getitem context "user";
          r ← getitem context "room";
          pair ← new (List [u; r]);
          es ← getitem context "exits";
          l1 ← concat pair es;
          us ← getitem context "users";
          l2 ← concat l1 us;
          ts ← getitem context "things";
          candidate_objects ← concat l2 ts;
          if Logic.MATCH_OBJECT_ID first then
            object_id ← lift (int (tail first));
            objs ← elements candidate_objects;
            out ← new (List []);
            _ ← with_id object_id out objs;
            mret out
          else
            matched_objects ← new (List []);
            word_list ← new (List []);
            scan candidate_objects words word_list matched_objects
    end.

(** *** Vocabulary of the statements *)

(** Every object of [h] is in [h'] with the same content. *)
Definition unchanged (h h' : heap) : Prop :=
  forall l c, h !! l = Some c -> h' !! l = Some c.

(** [rep_value h v pv]: in the store [h], the value [v] has the content
    [pv]; a reference stands for the list it points to. *)
#[warnings="-register-all"]
Inductive rep_value (h : heap) : val -> value -> Prop :=
  | rep_none : rep_value h RNone VNone
  | rep_bool b : rep_value h (RBool b) (VBool b)
  | rep_int z : rep_value h (RInt z) (VInt z)
  | rep_str s : rep_value h (RStr s) (VStr s)
  | rep_list l xs vs :
      h !! l = Some (List xs) ->
      Forall2 (rep_value h) xs vs ->
      rep_value h (Ref l) (VList vs).

(** A reference to a dictionary stands for an object, a reference to a list
    of such references for a list of objects, and a reference to a
    dictionary with the five keys for a context. *)
Definition rep_object (h : heap) (v : val) (o : Logic.Object) : Prop :=
  exists l d, v = Ref l /\ h !! l = Some (Dict d) /\
    forall k, option_Forall2 (rep_value h) (d !! k) (o !! k).

Definition rep_objects (h : heap) (v : val) (os : list Logic.Object) : Prop :=
  exists l xs, v = Ref l /\ h !! l = Some (List xs) /\
    Forall2 (rep_object h) xs os.

Definition rep_context (h : heap) (v : val) (c : Logic.Context) : Prop :=
  exists l d u r es us ts,
    v = Ref l /\ h !! l = Some (Dict d) /\
    d !! "user" = Some u /\ d !! "room" = Some r /\
    d !! "exits" = Some es /\ d !! "users" = Some us /\
    d !! "things" = Some ts /\
    rep_object h u (Logic.user c) /\ rep_object h r (Logic.room c) /\
    rep_objects h es (Logic.exits c) /\ rep_objects h us (Logic.users c) /\
    rep_objects h ts (Logic.things c).

(** The outcome of a run stands for the outcome [p] of the resolver on
    contents: the same exception, or a list of the objects of [p]. *)
Definition stands_for (run : result val * heap)
    (p : result (list Logic.Object)) : Prop :=
  match p, run.1 with
  | Ok os, Ok v => rep_objects run.2 v os
  | Raise e, Raise e' => e = e'
  | _, _ => False
  end.

(** The store after a computation, and its result. *)
Definition store_after {A : Type} (m : M A) (h : heap) : heap := (m h).2.
Definition result_of {A : Type} (m : M A) (h : heap) : result A := (m h).1.

End Store.

(** ** [emit_to_user] and [emit_to_room] *)
Module Messaging.
Import Py Logic.

(** What the two methods reach outside [logic.py]: the key [IS_USER] of
    [textsmith/defaults.py], the Markdown renderer (with the two extensions
    the call names) and the datastore's [get_contents], whose dictionary is
    kept as the list of its items in insertion order.  All three are
    parameters. *)
Class Collaborators : Type := {
  IS_USER : string;
  markdown : string -> string;
  get_contents : Z -> result (list (value * Object));
}.

(** [datastore.redis.publish(channel, output)] *)
Inductive event : Type :=
  | Published (channel output : string).

(** The truth value of a Python value, as [and] and [if] read it. *)
Definition truthy (v : value) : bool :=
  match v with
  | VNone => false
  | VBool b => b
  | VInt z => negb (bool_decide (z = 0%Z))
  | VStr s => negb (is_empty s)
  | VList l => match l with [] => false | _ :: _ => true end
  end.

(** [v in exclude] for a sequence of [int]. *)
Definition excluded (v : value) (exclude : list Z) : bool :=
  existsb (eq_int v) exclude.

(** [emit_to_user]: the message is rendered and published on the channel
    named by [str(user_id)].  [str(message)] is the message itself. *)
Definition emit_to_user `{Collaborators} (user_id : value) (message : string)
  : list event :=
  let output := markdown message in
  [Published (str user_id) output].

(** The loop of [emit_to_room] over [contents.values()]: the events so far,
    and how the loop ended.  The second operand of [and] is read only when
    the first is true. *)
Fixpoint deliver `{Collaborators} (values : list Object) (exclude : list Z)
    (message : string) : list event * result unit :=
  match values with
  | [] => ([], Ok tt)
  | value :: rest =>
      if truthy (get value IS_USER (VBool false)) then
        match getitem value "id" with
        | Raise e => ([], Raise e)
        | Ok v =>
            if negb (excluded v exclude) then
              let sent := emit_to_user v message in
              let '(later, r) := deliver rest exclude message in
              (sent ++ later, r)
            else deliver rest exclude message
        end
      else deliver rest exclude message
  end.

Definition emit_to_room `{Collaborators} (room_id : Z) (exclude : list Z)
    (message : string) : list event * result unit :=
  match get_contents room_id with
  | Raise e => ([], Raise e)
  | Ok contents => deliver (snd <$> contents) exclude message
  end.

(** *** Vocabulary of the statements *)

(** The value is a user, as the loop tests it. *)
Definition is_user `{Collaborators} (o : Object) : bool :=
  truthy (get o IS_USER (VBool false)).

(** The value is a user whose identifier is not excluded. *)
Definition recipient `{Collaborators} (exclude : list Z) (o : Object) : bool :=
  is_user o &&
  match o !! "id" with
  | Some v => negb (excluded v exclude)
  | None => false
  end.

(** The one event a recipient gets. *)
Definition delivery `{Collaborators} (message : string) (o : Object) : event :=
  Published (str (get o "id" VNone)) (markdown message).

End Messaging.

(** ** A small world for the examples *)
Module Sample.
Import Py Logic.

(** Constants in the shape the resolver expects: two self aliases, one here
    alias, and the pattern that accepts [#] followed by one or more digits. *)
Definition object_id_pattern (w : string) : bool :=
  match w with
  | String "#" r => negb (is_empty r) && all_digits r
  | _ => false
  end.

#[export] Instance defaults : Defaults := {|
  USER_ALIASES := ["me"; "myself"];
  ROOM_ALIASES := ["here"];
  MATCH_OBJECT_ID := object_id_pattern;
  NAME := "name";
  ALIAS := "alias";
  IS_SCRIPT := "#!";
|}.

Definition object (i : Z) (nm : string) (als : list string) : Object :=
  {[ "id" := VInt i; "name" := VStr nm; "alias" := VList (VStr <$> als) ]}.

Definition alice : Object := object 1 "Alice" ["al"].
Definition hall : Object := object 2 "Great Hall" ["hall"].
Definition north : Object := object 3 "north" ["n"].
Definition bob : Object := object 4 "Bob" [].
Definition sword : Object := object 5 "Red Sword" ["sword"].
Definition doom : Object := object 6 "red sword of doom" ["SWORD"].
Definition twin : Object := object 5 "lamp" ["light"].

Definition context : Context := {|
  user := alice;
  room := hall;
  exits := [north];
  users := [bob];
  things := [sword; doom; twin];
|}.

(** A store that holds a context of three objects: the user at location 2
    with her alias list at 6, the room at 3, no exit, no other user, and one
    thing at 7 with its alias list at 8. *)
Definition context_dict : gmap string Store.val :=
  {[ "user" := Store.Ref 2; "room" := Store.Ref 3; "exits" := Store.Ref 4;
     "users" := Store.Ref 4; "things" := Store.Ref 5 ]}.

Definition alice_dict : gmap string Store.val :=
  {[ "id" := Store.RInt 1; "name" := Store.RStr "Alice";
     "alias" := Store.Ref 6 ]}.

Definition hall_dict : gmap string Store.val :=
  {[ "id" := Store.RInt 2; "name" := Store.RStr "Great Hall" ]}.

Definition sword_dict : gmap string Store.val :=
  {[ "id" := Store.RInt 5; "name" := Store.RStr "Red Sword";
     "alias" := Store.Ref 8 ]}.

Definition store : Store.heap :=
  {[ 1%positive := Store.Dict context_dict;
     2%positive := Store.Dict alice_dict;
     3%positive := Store.Dict hall_dict;
     4%positive := Store.List [];
     5%positive := Store.List [Store.Ref 7];
     6%positive := Store.List [Store.RStr "al"];
     7%positive := Store.Dict sword_dict;
     8%positive := Store.List [Store.RStr "sword"] ]}.



(** The contents of [store]. *)
Definition bare_hall : Object := {[ "id" := VInt 2; "name" := VStr "Great Hall" ]}.

Definition small : Context := {|
  user := alice;
  room := bare_hall;
  exits := [];
  users := [];
  things := [sword];
|}.

(** A verb registry in which every handler fails, as the mocked [parse] of
    the parser's tests does. *)
Definition failing : Parser.World := {|
  Parser.verbs := fun _ =>
    {| Parser.trace := []; Parser.raised := Some (Parser.Exception "boom!") |};
  Parser.SYSTEM_OUTPUT_before := "<system>";
  Parser.SYSTEM_OUTPUT_after := "</system>";
  Parser.HUH := ["Huh?"; "I do not understand."];
  Parser.choice := fun pool => default EmptyString (head pool);
|}.

(** A verb registry whose handlers do nothing and know no verb. *)
Definition quiet : Parser.World := {|
  Parser.verbs := fun c =>
    {| Parser.trace := [];
       Parser.raised :=
         match c with
         | Parser.Shortcut _ _ _ _ _ => None
         | Parser.Verb _ _ _ _ _ => Some Parser.UnknownVerb
         end |};
  Parser.SYSTEM_OUTPUT_before := "<system>";
  Parser.SYSTEM_OUTPUT_after := "</system>";
  Parser.HUH := ["Huh?"; "I do not understand."];
  Parser.choice := fun pool => default EmptyString (head pool);
|}.

(** *** Rooms for [emit_to_room] *)

Definition player (i : Z) : Object :=
  {[ "id" := VInt i; "is_user" := VBool true ]}.

Definition lamp : Object := {[ "name" := VStr "lamp" ]}.

Definition ghost : Object := {[ "is_user" := VBool true ]}.

(** Room 1 holds three players around a lamp; room 2 holds a user record
    that has lost its identifier. *)
Definition lobby : Messaging.Collaborators := {|
  Messaging.IS_USER := "is_user";
  Messaging.markdown := fun s => "<p>" +:+ s +:+ "</p>";
  Messaging.get_contents := fun room_id =>
    match room_id with
    | 1%Z => Ok [(VInt 1, player 1); (VInt 7, lamp); (VInt 2, player 2);
                 (VInt 3, player 3)]
    | 2%Z => Ok [(VInt 1, player 1); (VInt 8, ghost); (VInt 3, player 3)]
    | _ => Ok []
    end
|}.

End Sample.

(* ===================================================================== *)
(** * Properties                                                          *)
(* ===================================================================== *)

(** ** Facts about the Python built-ins *)
Module PyFacts.
Import Py.

Ltac each_char c := destruct c as [[] [] [] [] [] [] [] []].

Lemma append_assoc (a b c : string) : (a +:+ b) +:+ c = a +:+ (b +:+ c).
Proof.
  induction a as [|x a IH]; [reflexivity|].
  change (String x ((a +:+ b) +:+ c) = String x (a +:+ (b +:+ c))).
  now rewrite IH.
Qed.

Lemma isspace_lower_char c : isspace (lower_char c) = isspace c.
Proof. each_char c; reflexivity. Qed.

Lemma lower_char_idemp c : lower_char (lower_char c) = lower_char c.
Proof. each_char c; reflexivity. Qed.

Lemma digit_not_space c : isdigit c = true -> isspace c = false.
Proof. each_char c; vm_compute; congruence. Qed.

Lemma lower_idemp s : lower (lower s) = lower s.
Proof.
  induction s as [|c r IH]; simpl; [reflexivity|].
  now rewrite lower_char_idemp, IH.
Qed.

Lemma lstrip_all_whitespace s : all_whitespace s = true -> lstrip s = EmptyString.
Proof.
  induction s as [|c r IH]; simpl; [reflexivity|].
  intros [Hc Hr]%andb_true_iff. rewrite Hc. auto.
Qed.

Lemma strip_all_whitespace s : all_whitespace s = true -> strip s = EmptyString.
Proof. intros Hs. unfold strip. now rewrite lstrip_all_whitespace. Qed.

(** Conversely, a string with a character that is not whitespace does not
    strip to the empty string. *)
Lemma rstrip_empty s : rstrip s = EmptyString -> all_whitespace s = true.
Proof.
  induction s as [|c r IH]; simpl; [reflexivity|].
  destruct (isspace c); simpl; [|discriminate].
  destruct (rstrip r); simpl; [auto | discriminate].
Qed.

Lemma all_whitespace_lstrip s :
  all_whitespace (lstrip s) = true -> all_whitespace s = true.
Proof.
  induction s as [|c r IH]; simpl; [reflexivity|].
  destruct (isspace c) eqn:Hc; simpl; [auto|].
  rewrite Hc. discriminate.
Qed.

Lemma strip_empty_iff s : strip s = EmptyString <-> all_whitespace s = true.
Proof.
  split; [|apply strip_all_whitespace].
  intros Hs. apply all_whitespace_lstrip, rstrip_empty, Hs.
Qed.

Lemma lower_empty s : is_empty (lower s) = is_empty s.
Proof. destruct s; reflexivity. Qed.

(** Digit strings pass through [strip] unchanged and [int] reads their
    decimal value. *)
Lemma rstrip_digits s : all_digits s = true -> rstrip s = s.
Proof.
  induction s as [|c r IH]; simpl; [reflexivity|].
  intros [Hc Hr]%andb_true_iff.
  rewrite (digit_not_space _ Hc), IH by assumption. reflexivity.
Qed.

Lemma strip_digits s : all_digits s = true -> strip s = s.
Proof.
  intros Hs. unfold strip.
  destruct s as [|c r]; [reflexivity|].
  pose proof Hs as [Hc _]%andb_true_iff. simpl lstrip.
  rewrite (digit_not_space _ Hc). now apply rstrip_digits.
Qed.

Lemma isdigit_digit_of c : isdigit c = true -> exists d, digit_of c = Some d.
Proof.
  unfold isdigit. intros Hc%bool_decide_eq_true. destruct Hc as [d Hd]. eauto.
Qed.

Lemma int_digits_decimal s acc :
  all_digits s = true -> int_digits acc false s = Some (decimal_from acc s).
Proof.
  revert acc. induction s as [|c r IH]; intros acc; simpl; [reflexivity|].
  intros [Hc Hr]%andb_true_iff.
  destruct (isdigit_digit_of _ Hc) as [d ->]. simpl. now apply IH.
Qed.

Lemma digit_not_sign c :
  isdigit c = true -> c <> "+"%char /\ c <> "-"%char.
Proof. each_char c; vm_compute; intros; split; congruence. Qed.

Lemma int_digits_string s :
  s <> EmptyString -> all_digits s = true -> int s = Ok (decimal s).
Proof.
  intros Hne Hs. unfold int. rewrite strip_digits by assumption.
  destruct s as [|c r]; [congruence|].
  pose proof Hs as [Hc _]%andb_true_iff.
  destruct (digit_not_sign _ Hc) as [Hplus Hminus].
  assert (Hu : int_unsigned (String c r) = Some (decimal (String c r))).
  { unfold int_unsigned. rewrite Hc. now apply int_digits_decimal. }
  destruct (ascii_dec c "+") as [->|_]; [congruence|].
  destruct (ascii_dec c "-") as [->|_]; [congruence|].
  assert (Hgen : match String c r with
                 | String "+" r0 => int_unsigned r0
                 | String "-" r0 => Z.opp <$> int_unsigned r0
                 | _ => int_unsigned (String c r)
                 end = int_unsigned (String c r)).
  { each_char c; try reflexivity; congruence. }
  rewrite Hgen, Hu. reflexivity.
Qed.

(** [split] of a non-empty stripped string is not empty. *)
Lemma split_from_word cur s : cur <> EmptyString -> split_from cur s <> [].
Proof.
  revert cur. induction s as [|c r IH]; intros cur Hcur; simpl.
  - destruct cur; [congruence | discriminate].
  - destruct (isspace c).
    + destruct cur; [congruence | discriminate].
    + apply IH. destruct cur; discriminate.
Qed.

Lemma split_empty : split EmptyString = [].
Proof. reflexivity. Qed.

Lemma split_not_whitespace s : all_whitespace s = false -> split s <> [].
Proof.
  unfold split. induction s as [|c r IH]; simpl; [discriminate|].
  destruct (isspace c); simpl; [exact IH|].
  intros _. now apply split_from_word.
Qed.

(** The built-ins on a few inputs. *)
Example split_words : split "  red   sword " = ["red"; "sword"].
Proof. reflexivity. Qed.

Example strip_keeps_inner : strip "  red   sword " = "red   sword".
Proof. reflexivity. Qed.

Example lower_mixed : lower "Red SWORD #5" = "red sword #5".
Proof. reflexivity. Qed.

Example int_leading_zeros : int "0042" = Ok 42%Z.
Proof. reflexivity. Qed.

Example int_underscore : int " -4_2 " = Ok (-42)%Z.
Proof. reflexivity. Qed.

Example int_rejects : int "12abc" = Raise ValueError /\ int "" = Raise ValueError.
Proof. split; reflexivity. Qed.

Example str_of_values :
  str (VInt (-12)) = "-12" /\ str (VBool true) = "True"
  /\ str (VStr "#! look") = "#! look"
  /\ str (VList [VStr "a"; VInt 1; VNone]) = "['a', 1, None]".
Proof. repeat split; reflexivity. Qed.

End PyFacts.

(** ** The resolver: [matches_name] and [match_object] *)
Module LogicFacts.
Import Py Logic PyFacts.

Section Resolver.
Context `{Defaults}.

(** *** [matches_name] *)

Lemma comprehension_lower (als : list string) :
  comprehension value_lower (VStr <$> als) = Ok (lower <$> als).
Proof.
  induction als as [|a r IH]; [reflexivity|].
  rewrite !fmap_cons. cbn [comprehension]. rewrite IH. reflexivity.
Qed.

(** On a well-typed object [matches_name] returns, and its answer is the
    comparison of the lowered strings. *)
Lemma matches_name_named name obj nm als :
  named obj nm als ->
  matches_name name obj =
    Ok (bool_decide (lower nm = lower name)
        || bool_decide (lower name ∈ lower <$> als)).
Proof.
  intros [Hnm Hal]. unfold matches_name.
  unfold display_name in Hnm. unfold alias_value in Hal.
  rewrite Hnm, Hal. simpl.
  destruct (bool_decide (lower nm = lower name)); simpl; [reflexivity|].
  rewrite comprehension_lower. simpl.
  destruct (bool_decide (lower name ∈ lower <$> als)); reflexivity.
Qed.

Lemma named_unique obj nm als nm' als' :
  named obj nm als -> named obj nm' als' -> nm' = nm /\ als' = als.
Proof.
  intros [Hn Ha] [Hn' Ha']. rewrite Hn in Hn'. rewrite Ha in Ha'.
  split; [congruence|].
  assert (Hinj : VStr <$> als' = VStr <$> als) by congruence.
  clear -Hinj. revert als Hinj.
  induction als' as [|a r IH]; intros [|b q]; simpl; try discriminate; auto.
  intros Heq. injection Heq as -> Hr. f_equal. auto.
Qed.

Lemma hit_name_or_alias name obj :
  well_named obj -> hit name obj = true <-> name_or_alias name obj.
Proof.
  intros (nm & als & Hn). unfold hit.
  rewrite (matches_name_named _ _ _ _ Hn).
  rewrite orb_true_iff, !bool_decide_eq_true. split.
  - intros [Hnm | Hin]; exists nm, als; split; auto.
    + left. unfold same_nocase. congruence.
    + right. apply list_elem_of_fmap in Hin as (a & Ha & Hin). eauto.
  - intros (nm' & als' & Hn' & Hor).
    destruct (named_unique _ _ _ _ _ Hn Hn') as [-> ->].
    destruct Hor as [Hs | (a & Hin & Hs)].
    + left. unfold same_nocase in Hs. congruence.
    + right. unfold same_nocase in Hs. rewrite Hs.
      apply list_elem_of_fmap. eauto.
Qed.

(** The specification's rule is decidable on well-typed objects; on other
    objects it does not hold. *)
Lemma name_or_alias_well_named name obj :
  name_or_alias name obj -> well_named obj.
Proof. intros (nm & als & Hn & _). exists nm, als. exact Hn. Qed.

(** *** The loops of [match_object] *)

(** When the inner loop returns, it has appended the candidates that
    [matches_name] accepts, in their order. *)
Lemma hit_ok name obj b : matches_name name obj = Ok b -> hit name obj = b.
Proof. unfold hit. now intros ->. Qed.

Lemma collect_ok name objs acc res :
  collect name objs acc = Ok res ->
  res = acc ++ filter (fun obj => hit name obj) objs.
Proof.
  revert acc. induction objs as [|obj rest IH]; intros acc; cbn [collect].
  - intros [= <-]. now rewrite app_nil_r.
  - destruct (matches_name name obj) as [b|e] eqn:E; simpl; [|discriminate].
    intros Hres. apply IH in Hres. subst res.
    rewrite filter_cons, (hit_ok _ _ _ E).
    destruct b; simpl; [|reflexivity].
    now rewrite <- app_assoc.
Qed.

Lemma collect_named name objs acc :
  Forall well_named objs ->
  collect name objs acc = Ok (acc ++ filter (fun obj => hit name obj) objs).
Proof.
  intros Hwf. revert acc.
  induction Hwf as [|obj rest (nm & als & Hn) _ IH]; intros acc; cbn [collect].
  - now rewrite app_nil_r.
  - pose proof (matches_name_named name _ _ _ Hn) as E. rewrite E. simpl.
    rewrite IH, filter_cons, (hit_ok _ _ _ E).
    destruct (_ || _); simpl; [|reflexivity].
    now rewrite <- app_assoc.
Qed.

(** *** The specification's rule as a decidable predicate *)

Lemma strings_of_Some l als : strings_of l = Some als <-> l = VStr <$> als.
Proof.
  revert als. induction l as [|v r IH]; intros als; simpl.
  - split.
    + now intros [= <-].
    + destruct als; [reflexivity | discriminate].
  - destruct v as [| b | z | s | l']; try (split; [discriminate|]);
      try (destruct als; discriminate).
    split.
    + destruct (strings_of r) as [r'|] eqn:E; simpl; [|discriminate].
      intros [= <-]. rewrite fmap_cons. f_equal. now apply IH.
    + destruct als as [|a q]; [discriminate|]. rewrite fmap_cons.
      intros [= -> Hr]. apply IH in Hr. now rewrite Hr.
Qed.

Lemma name_or_alias_test_spec name obj :
  name_or_alias_test name obj = true <-> name_or_alias name obj.
Proof.
  unfold name_or_alias_test, name_or_alias, named. split.
  - destruct (display_name obj) as [| | |nm|]; try discriminate.
    destruct (alias_value obj) as [| | | |l]; try discriminate.
    destruct (strings_of l) as [als|] eqn:E; [|discriminate].
    apply strings_of_Some in E. subst l.
    rewrite orb_true_iff, !bool_decide_eq_true, Exists_exists.
    intros Hor. exists nm, als. split; [auto|].
    destruct Hor as [?|(a & Hin & Ha)]; [left | right]; eauto.
  - intros (nm & als & [-> ->] & Hor).
    rewrite (proj2 (strings_of_Some _ als) eq_refl).
    rewrite orb_true_iff, !bool_decide_eq_true, Exists_exists.
    destruct Hor as [?|(a & Hin & Ha)]; [left | right]; eauto.
Qed.

#[global] Instance name_or_alias_dec name obj : Decision (name_or_alias name obj).
Proof.
  destruct (name_or_alias_test name obj) eqn:E.
  - left. now apply name_or_alias_test_spec.
  - right. intros Hn%name_or_alias_test_spec. congruence.
Defined.

(** The candidates of [objs] that match [name] by the specification's rule,
    in their order and with repetitions kept. *)
Definition matching (name : string) (objs : list Object) : list Object :=
  filter (name_or_alias name) objs.

Lemma matching_hit name objs :
  Forall well_named objs ->
  filter (fun obj => hit name obj) objs = matching name objs.
Proof.
  unfold matching. induction 1 as [|obj rest Hobj _ IH]; [reflexivity|].
  rewrite !filter_cons, IH.
  pose proof (hit_name_or_alias name obj Hobj) as Hiff.
  destruct (decide (name_or_alias name obj)) as [Hy|Hn];
    destruct (hit name obj) eqn:E; simpl; try reflexivity.
  - apply Hiff in Hy. congruence.
  - exfalso. apply Hn, Hiff. reflexivity.
Qed.

(** *** The outer loop *)

Lemma prefix_snoc (wl ws : list string) w :
  join " " (wl ++ [w]) = prefix (S (length wl)) (wl ++ w :: ws).
Proof.
  unfold prefix. f_equal.
  replace (wl ++ w :: ws) with ((wl ++ [w]) ++ ws) by now rewrite <- app_assoc.
  rewrite take_app_length'; [reflexivity|].
  rewrite length_app. simpl. lia.
Qed.

(** When the outer loop returns, its result is the selection of the
    candidates by [matches_name] at one of the prefixes it has tried. *)
Lemma scan_ok cands all ws wl res :
  all = wl ++ ws -> ws <> [] ->
  scan cands ws wl [] = Ok res ->
  exists k, length wl < k <= length all /\
    res = filter (fun obj => hit (prefix k all) obj) cands.
Proof.
  revert wl. induction ws as [|w ws' IH]; intros wl Hall Hne; [congruence|].
  cbn [scan].
  destruct (collect _ cands []) as [found|e] eqn:E; simpl; [|discriminate].
  apply collect_ok in E. rewrite app_nil_l in E.
  assert (Hhere : found = filter (fun obj => hit (prefix (S (length wl)) all) obj) cands)
    by (rewrite E; subst all; now rewrite <- prefix_snoc).
  assert (Hlen : length wl < S (length wl) <= length all)
    by (subst all; rewrite length_app; simpl; lia).
  destruct found as [|o found'].
  - destruct ws' as [|w' ws''].
    + cbn [scan]. intros [= <-]. eauto.
    + intros Hres. apply (IH (wl ++ [w])) in Hres; [| |discriminate].
      * destruct Hres as (k & Hk & ?). exists k. split; [|assumption].
        rewrite length_app in Hk. simpl in Hk. lia.
      * subst all. now rewrite <- app_assoc.
  - intros [= <-]. eauto.
Qed.

(** On well-typed candidates the outer loop returns the first selection
    that is not empty. *)
Lemma scan_named cands all ws wl :
  Forall well_named cands ->
  all = wl ++ ws ->
  scan cands ws wl [] = Ok (first_hit cands all (length wl) (length ws)).
Proof.
  intros Hwf. revert wl. induction ws as [|w ws' IH]; intros wl Hall;
    cbn [scan first_hit length]; [reflexivity|].
  rewrite collect_named by assumption. rewrite app_nil_l. simpl.
  assert (Hname : join " " (wl ++ [w]) = prefix (S (length wl)) all)
    by (subst all; apply prefix_snoc).
  rewrite Hname.
  destruct (filter _ cands) as [|o found]; [|reflexivity].
  rewrite (IH (wl ++ [w])).
  - rewrite length_app. simpl. now rewrite Nat.add_1_r.
  - subst all. now rewrite <- app_assoc.
Qed.

(** Whenever the outer loop returns, it returns the first selection that is
    not empty. *)
Lemma scan_first_hit cands all ws wl res :
  all = wl ++ ws ->
  scan cands ws wl [] = Ok res ->
  res = first_hit cands all (length wl) (length ws).
Proof.
  revert wl. induction ws as [|w ws' IH]; intros wl Hall;
    cbn [scan first_hit length]; [now intros [= <-]|].
  destruct (collect _ cands []) as [found|e] eqn:E; simpl; [|discriminate].
  apply collect_ok in E. rewrite app_nil_l in E.
  assert (Hname : join " " (wl ++ [w]) = prefix (S (length wl)) all)
    by (subst all; apply prefix_snoc).
  rewrite Hname in E. rewrite <- E.
  destruct found as [|o found']; [|now intros [= <-]].
  intros Hres. apply (IH (wl ++ [w])) in Hres.
  - rewrite length_app in Hres. simpl in Hres. now rewrite Nat.add_1_r in Hres.
  - subst all. now rewrite <- app_assoc.
Qed.

Lemma first_hit_none cands all k n :
  (forall j, k < j <= k + n ->
     filter (fun obj => hit (prefix j all) obj) cands = []) ->
  first_hit cands all k n = [].
Proof.
  revert k. induction n as [|n IH]; intros k Hnone; cbn [first_hit]; [reflexivity|].
  rewrite (Hnone (S k)) by lia. apply IH. intros j Hj. apply Hnone. lia.
Qed.

Lemma first_hit_least cands all k n m :
  k < m <= k + n ->
  filter (fun obj => hit (prefix m all) obj) cands <> [] ->
  (forall j, k < j < m ->
     filter (fun obj => hit (prefix j all) obj) cands = []) ->
  first_hit cands all k n = filter (fun obj => hit (prefix m all) obj) cands.
Proof.
  revert k. induction n as [|n IH]; intros k Hm Hsome Hbelow; [lia|].
  cbn [first_hit].
  destruct (decide (m = S k)) as [->|Hne].
  - destruct (filter _ cands) as [|o found] eqn:E; [congruence | reflexivity].
  - rewrite (Hbelow (S k)) by lia. apply IH; [lia | assumption |].
    intros j Hj. apply Hbelow. lia.
Qed.

Lemma first_hit_cases cands all k n :
  let found j := filter (fun obj => hit (prefix j all) obj) cands in
  (exists m, k < m <= k + n /\ found m <> [] /\
     (forall j, k < j < m -> found j = []) /\
     first_hit cands all k n = found m)
  \/ ((forall j, k < j <= k + n -> found j = []) /\
      first_hit cands all k n = []).
Proof.
  intros found. revert k. induction n as [|n IH]; intros k.
  - right. split; [intros j Hj; lia | reflexivity].
  - destruct (found (S k)) as [|o l] eqn:E.
    + destruct (IH (S k)) as [(m & Hm & Hsome & Hbelow & Hres)|[Hnone Hres]].
      * left. exists m. split; [lia|]. split; [assumption|]. split.
        -- intros j Hj. destruct (decide (j = S k)) as [->|]; [assumption|].
           apply Hbelow. lia.
        -- apply first_hit_least; [lia | assumption |].
           intros j Hj. destruct (decide (j = S k)) as [->|]; [assumption|].
           apply Hbelow. lia.
      * right. split.
        -- intros j Hj. destruct (decide (j = S k)) as [->|]; [assumption|].
           apply Hnone. lia.
        -- apply first_hit_none. intros j Hj.
           destruct (decide (j = S k)) as [->|]; [assumption|].
           apply Hnone. lia.
    + assert (Hsome : found (S k) <> []) by (rewrite E; discriminate).
      left. exists (S k). split; [lia|]. split; [assumption|].
      split; [intros j Hj; lia|].
      apply first_hit_least; [lia | assumption | intros j Hj; lia].
Qed.

(** *** [match_object] after normalisation *)

Lemma match_object_words identifier context first rest :
  split (lower (strip identifier)) = first :: rest ->
  match_object identifier context =
    if bool_decide (first ∈ USER_ALIASES) then Ok [user context]
    else if bool_decide (first ∈ ROOM_ALIASES) then Ok [room context]
    else if MATCH_OBJECT_ID first then
      int (tail first) ≫= fun object_id =>
        with_id object_id (candidate_objects context)
    else scan (candidate_objects context) (first :: rest) [] [].
Proof.
  intros Hwords. unfold match_object.
  destruct (lower (strip identifier)) as [|c r] eqn:E.
  - discriminate.
  - cbn [is_empty]. rewrite Hwords. reflexivity.
Qed.

Lemma id_hit_value object_id obj v :
  obj !! "id" = Some v -> id_hit object_id obj = eq_int v object_id.
Proof. unfold id_hit. now intros ->. Qed.

Lemma with_id_ok object_id objs res :
  with_id object_id objs = Ok res -> res = filter (id_hit object_id) objs.
Proof.
  revert res. induction objs as [|obj rest IH]; intros res; cbn [with_id].
  - now intros [= <-].
  - unfold getitem.
    destruct (obj !! "id") as [v|] eqn:E; simpl; [|discriminate].
    destruct (with_id object_id rest) as [found|e]; simpl; [|discriminate].
    intros [= <-]. rewrite filter_cons, (id_hit_value _ _ _ E), (IH found eq_refl).
    destruct (eq_int v object_id); reflexivity.
Qed.

Lemma with_id_identified object_id objs :
  Forall identified objs ->
  with_id object_id objs =
    Ok (filter (fun obj => object_id_of obj = Some object_id) objs).
Proof.
  induction 1 as [|obj rest [z Hz] _ IH]; cbn [with_id]; [reflexivity|].
  unfold getitem. rewrite Hz, IH. simpl. rewrite filter_cons.
  assert (Hid : object_id_of obj = Some z) by (unfold object_id_of; now rewrite Hz).
  rewrite Hid.
  destruct (decide (Some z = Some object_id)) as [[= ->]|Hne].
  - now rewrite bool_decide_eq_true_2.
  - rewrite bool_decide_eq_false_2; [reflexivity | congruence].
Qed.

(** *** Properties of [matches_name] and [match_object] *)

(** C7: on every name and every object [matches_name] answers true exactly
    when the name equals the object's display name up to case, or equals one
    of its aliases up to case; and the answer does not change when the case
    of the name, of the stored display name or of any stored alias is
    changed. *)
Theorem matches_name_case_insensitive name obj nm als :
  named obj nm als ->
  (exists b, matches_name name obj = Ok b /\
     (b = true <->
      same_nocase name nm \/ exists a, a ∈ als /\ same_nocase name a))
  /\ (forall name' obj' nm' als',
        named obj' nm' als' ->
        same_nocase name' name -> same_nocase nm' nm ->
        Forall2 same_nocase als' als ->
        matches_name name' obj' = matches_name name obj).
Proof.
  intros Hn. split.
  - exists (hit name obj). split.
    + rewrite (matches_name_named _ _ _ _ Hn). unfold hit.
      now rewrite (matches_name_named _ _ _ _ Hn).
    + assert (Hwf : well_named obj) by (exists nm, als; exact Hn).
      rewrite (hit_name_or_alias name obj Hwf). split.
      * intros (nm' & als' & Hn' & Hor).
        now destruct (named_unique _ _ _ _ _ Hn Hn') as [-> ->].
      * intros Hor. exists nm, als. split; assumption.
  - intros name' obj' nm' als' Hn' Hname Hnm Hals.
    rewrite (matches_name_named _ _ _ _ Hn), (matches_name_named _ _ _ _ Hn').
    unfold same_nocase in Hname, Hnm. rewrite Hname, Hnm.
    assert (Hl : lower <$> als' = lower <$> als).
    { clear -Hals. induction Hals as [|a b l l' Hab _ IH]; [reflexivity|].
      rewrite !fmap_cons. unfold same_nocase in Hab. now rewrite Hab, IH. }
    now rewrite Hl.
Qed.

(** C1: when the first word is neither an alias nor an object id,
    [match_object] tries the prefixes of 1, 2, ... words in turn and returns
    the candidates matching at the shortest prefix that matches any, never
    those of a longer prefix; when no prefix matches it returns the empty
    list. *)
Theorem match_object_shortest_prefix identifier context first rest :
  split (lower (strip identifier)) = first :: rest ->
  first ∉ USER_ALIASES -> first ∉ ROOM_ALIASES ->
  MATCH_OBJECT_ID first = false ->
  Forall well_named (candidate_objects context) ->
  let words := first :: rest in
  let found k := matching (prefix k words) (candidate_objects context) in
  (exists k, 1 <= k <= length words /\ found k <> [] /\
     (forall j, 1 <= j < k -> found j = []) /\
     match_object identifier context = Ok (found k))
  \/ ((forall k, 1 <= k <= length words -> found k = []) /\
      match_object identifier context = Ok []).
Proof.
  intros Hwords Huser Hroom Hid Hwf words found.
  set (n := length words). subst words.
  rewrite (match_object_words _ _ _ _ Hwords).
  rewrite bool_decide_eq_false_2 by assumption.
  rewrite bool_decide_eq_false_2 by assumption.
  rewrite Hid.
  rewrite (scan_named _ (first :: rest) _ [] Hwf eq_refl).
  assert (Hfound : forall k,
    filter (fun obj => hit (prefix k (first :: rest)) obj)
      (candidate_objects context) = found k)
    by (intros k; now apply matching_hit).
  change (length []) with 0. fold n.
  destruct (first_hit_cases (candidate_objects context) (first :: rest) 0 n)
    as [(m & Hm & Hsome & Hbelow & Hres)|[Hnone Hres]].
  - left. exists m. rewrite <- Hfound. split; [lia|].
    split; [assumption|]. split.
    + intros j Hj. rewrite <- Hfound. apply Hbelow. lia.
    + now rewrite Hres.
  - right. split.
    + intros k Hk. rewrite <- Hfound. apply Hnone. lia.
    + now rewrite Hres.
Qed.

(** C2: when the first word is [#] followed by digits, no more of them
    than the interpreter's [int] reads, [match_object] parses the digits as
    a number and returns every candidate of the pool whose identifier is
    that number, and only those; candidates sharing the identifier are all
    returned. *)
Theorem match_object_by_id identifier context digits rest :
  split (lower (strip identifier)) = String "#" digits :: rest ->
  digits <> EmptyString -> all_digits digits = true ->
  String.length digits <= default_max_str_digits ->
  MATCH_OBJECT_ID (String "#" digits) = true ->
  String "#" digits ∉ USER_ALIASES -> String "#" digits ∉ ROOM_ALIASES ->
  Forall identified (candidate_objects context) ->
  match_object identifier context =
    Ok (filter (fun obj => object_id_of obj = Some (decimal digits))
          ([user context; room context] ++ exits context ++ users context
             ++ things context)).
Proof.
  intros Hwords Hne Hdigits _ Hid Huser Hroom Hwf.
  rewrite (match_object_words _ _ _ _ Hwords).
  rewrite bool_decide_eq_false_2 by assumption.
  rewrite bool_decide_eq_false_2 by assumption.
  rewrite Hid. cbn [tail].
  rewrite (int_digits_string _ Hne Hdigits).
  unfold mbind, result_bind. cbv beta iota.
  now apply with_id_identified.
Qed.

(** C4: a list returned by the object-id branch or by the name branch of
    [match_object] lists the objects the identifier matched, in the order
    of the candidate pool.  The matched objects are those whose identifier
    equals the number [int] read, or those [matches_name] accepts at the
    shortest prefix of the words that any candidate matches (at the whole
    identifier when none does, and the list is empty).  They come as the
    matching ones of the user, then of the room, then of the exits, of the
    other users and of the things, each in its given order, with nothing
    removed for being repeated. *)
Theorem match_object_pool_order identifier context first rest res :
  split (lower (strip identifier)) = first :: rest ->
  first ∉ USER_ALIASES -> first ∉ ROOM_ALIASES ->
  match_object identifier context = Ok res ->
  let words := first :: rest in
  let found k :=
    filter (fun obj => hit (prefix k words) obj) (candidate_objects context) in
  exists sel : Object -> bool,
    (if MATCH_OBJECT_ID first
     then exists object_id,
            int (tail first) = Ok object_id /\ sel = id_hit object_id
     else exists k, 1 <= k <= length words /\ sel = hit (prefix k words) /\
            (forall j, 1 <= j < k -> found j = []) /\
            (res = [] -> k = length words))
    /\ res = filter sel [user context] ++ filter sel [room context]
             ++ filter sel (exits context) ++ filter sel (users context)
             ++ filter sel (things context).
Proof.
  intros Hwords Huser Hroom.
  rewrite (match_object_words _ _ _ _ Hwords).
  rewrite bool_decide_eq_false_2 by assumption.
  rewrite bool_decide_eq_false_2 by assumption.
  intros Hres words found.
  assert (Hsplit : forall sel : Object -> bool,
    filter sel (candidate_objects context)
    = filter sel [user context] ++ filter sel [room context]
        ++ filter sel (exits context) ++ filter sel (users context)
        ++ filter sel (things context)).
  { intros sel. unfold candidate_objects.
    change [user context; room context] with ([user context] ++ [room context]).
    now rewrite <- app_assoc, !filter_app. }
  destruct (MATCH_OBJECT_ID first).
  - destruct (int (tail first)) as [object_id|e];
      unfold mbind, result_bind in Hres; cbv beta iota in Hres;
      [|discriminate].
    apply with_id_ok in Hres. exists (id_hit object_id).
    split; [eauto|]. now rewrite <- Hsplit.
  - subst words found. cbv beta zeta.
    apply (scan_first_hit _ (first :: rest) _ []) in Hres; [|reflexivity].
    set (words := first :: rest) in *.
    change (length (@nil string)) with 0 in Hres.
    destruct (first_hit_cases (candidate_objects context) words 0
                (length words))
      as [(m & Hm & Hsome & Hbelow & Hhit)|[Hnone Hhit]];
      rewrite Hhit in Hres.
    + exists (hit (prefix m words)). split; [|now rewrite <- Hsplit].
      exists m. split; [lia|]. split; [reflexivity|]. split.
      * intros j Hj. apply Hbelow. lia.
      * intros Hnil. rewrite Hnil in Hres. now destruct Hsome.
    + exists (hit (prefix (length words) words)).
      split; [|rewrite <- Hsplit].
      * exists (length words). split; [cbn [words length]; lia|].
        split; [reflexivity|]. split; [|reflexivity].
        intros j Hj. apply Hnone. lia.
      * rewrite Hres. symmetry. apply Hnone. cbn [words length]. lia.
Qed.

(** C6: when the first normalised word is a self alias, [match_object]
    returns the one-element list of the acting user's object, whatever
    follows; when it is not, and it is a here alias, [match_object] returns
    the one-element list of the current room's object.  The self aliases are
    looked at first. *)
Theorem match_object_aliases identifier context first rest :
  split (lower (strip identifier)) = first :: rest ->
  (first ∈ USER_ALIASES ->
     match_object identifier context = Ok [user context])
  /\ (first ∉ USER_ALIASES -> first ∈ ROOM_ALIASES ->
      match_object identifier context = Ok [room context]).
Proof.
  intros Hwords. rewrite (match_object_words _ _ _ _ Hwords). split.
  - intros Hin. now rewrite bool_decide_eq_true_2.
  - intros Hout Hin. rewrite bool_decide_eq_false_2 by assumption.
    now rewrite bool_decide_eq_true_2.
Qed.

(** C8: on an identifier that consists of whitespace only, the empty string
    included, [match_object] returns the empty list in every context. *)
Theorem match_object_whitespace identifier context :
  all_whitespace identifier = true ->
  match_object identifier context = Ok [].
Proof.
  intros Hws. unfold match_object.
  now rewrite (strip_all_whitespace _ Hws).
Qed.

(** C10: [get_attribute_value] returns the empty string when the attribute
    is absent or holds [None], and the string form of the value otherwise; a
    [str] value, whether or not it starts with the script marker, comes back
    unchanged. *)
Theorem get_attribute_value_str obj attribute :
  get_attribute_value obj attribute =
    match obj !! attribute with
    | None | Some VNone => EmptyString
    | Some val => str val
    end
  /\ (forall s obj',
        get_attribute_value (<[attribute := VStr s]> obj') attribute = s).
Proof.
  assert (Hgen : forall o a, get_attribute_value o a =
    match o !! a with
    | None | Some VNone => EmptyString
    | Some val => str val
    end).
  { intros o a. unfold get_attribute_value, get.
    destruct (o !! a) as [val|] eqn:E.
    - rewrite bool_decide_eq_true_2 by eauto. simpl.
      destruct val; reflexivity.
    - rewrite bool_decide_eq_false_2; [reflexivity|].
      intros [? ?]; discriminate. }
  split; [apply Hgen|].
  intros s obj'. rewrite Hgen, lookup_insert_eq. reflexivity.
Qed.

End Resolver.

(** *** The properties at work in the sample world *)

#[local] Existing Instance Sample.defaults.

Lemma object_named i nm als : named (Sample.object i nm als) nm als.
Proof. split; vm_compute; reflexivity. Qed.

Lemma object_identified i nm als : identified (Sample.object i nm als).
Proof. exists i. vm_compute. reflexivity. Qed.

Lemma sample_well_named : Forall well_named (candidate_objects Sample.context).
Proof. repeat constructor; eexists _, _; apply object_named. Qed.

Lemma sample_identified : Forall identified (candidate_objects Sample.context).
Proof. repeat constructor; apply object_identified. Qed.

Lemma matches_name_case_insensitive_example :
  (exists b, matches_name "SWORD" Sample.sword = Ok b /\
     (b = true <->
      same_nocase "SWORD" "Red Sword"
      \/ exists a, a ∈ ["sword"] /\ same_nocase "SWORD" a))
  /\ (forall name' obj' nm' als',
        named obj' nm' als' ->
        same_nocase name' "SWORD" -> same_nocase nm' "Red Sword" ->
        Forall2 same_nocase als' ["sword"] ->
        matches_name name' obj' = matches_name "SWORD" Sample.sword).
Proof.
  apply (matches_name_case_insensitive "SWORD" Sample.sword "Red Sword" ["sword"]).
  apply object_named.
Defined.

Lemma match_object_shortest_prefix_example :
  let words := ["red"; "sword"; "of"; "doom"] in
  let found k := matching (prefix k words) (candidate_objects Sample.context) in
  (exists k, 1 <= k <= length words /\ found k <> [] /\
     (forall j, 1 <= j < k -> found j = []) /\
     match_object " Red  sword of DOOM" Sample.context = Ok (found k))
  \/ ((forall k, 1 <= k <= length words -> found k = []) /\
      match_object " Red  sword of DOOM" Sample.context = Ok []).
Proof.
  apply (match_object_shortest_prefix " Red  sword of DOOM" Sample.context
           "red" ["sword"; "of"; "doom"]).
  - vm_compute. reflexivity.
  - compute_done.
  - compute_done.
  - reflexivity.
  - apply sample_well_named.
Defined.

Lemma match_object_by_id_example :
  match_object "#5 please" Sample.context =
    Ok (filter (fun obj => object_id_of obj = Some (decimal "5"))
          ([user Sample.context; room Sample.context] ++ exits Sample.context
             ++ users Sample.context ++ things Sample.context)).
Proof.
  apply (match_object_by_id "#5 please" Sample.context "5" ["please"]).
  - vm_compute. reflexivity.
  - discriminate.
  - reflexivity.
  - unfold default_max_str_digits. cbn [String.length]. lia.
  - reflexivity.
  - compute_done.
  - compute_done.
  - apply sample_identified.
Defined.

Lemma match_object_pool_order_example :
  let words := ["sword"] in
  let found k :=
    filter (fun obj => hit (prefix k words) obj)
      (candidate_objects Sample.context) in
  exists sel : Object -> bool,
    (if MATCH_OBJECT_ID "sword"
     then exists object_id,
            int (tail "sword") = Ok object_id /\ sel = id_hit object_id
     else exists k, 1 <= k <= length words /\ sel = hit (prefix k words) /\
            (forall j, 1 <= j < k -> found j = []) /\
            ([Sample.sword; Sample.doom] = [] -> k = length words))
    /\ [Sample.sword; Sample.doom] =
         filter sel [user Sample.context] ++ filter sel [room Sample.context]
           ++ filter sel (exits Sample.context)
           ++ filter sel (users Sample.context)
           ++ filter sel (things Sample.context).
Proof.
  apply (match_object_pool_order "sword" Sample.context "sword" []).
  - vm_compute. reflexivity.
  - compute_done.
  - compute_done.
  - vm_compute. reflexivity.
Defined.

Lemma match_object_aliases_example :
  ("me" ∈ USER_ALIASES ->
     match_object "Me and you" Sample.context = Ok [user Sample.context])
  /\ ("me" ∉ USER_ALIASES -> "me" ∈ ROOM_ALIASES ->
      match_object "Me and you" Sample.context = Ok [room Sample.context]).
Proof.
  apply (match_object_aliases "Me and you" Sample.context "me" ["and"; "you"]).
  vm_compute. reflexivity.
Defined.

Lemma match_object_whitespace_example :
  match_object (String " " (String "009" (String "010" EmptyString)))
    Sample.context = Ok [].
Proof. apply match_object_whitespace. reflexivity. Defined.

(** The resolver in the sample world. *)
Example match_object_stops_early :
  match_object "red sword of doom" Sample.context = Ok [Sample.sword].
Proof. vm_compute. reflexivity. Qed.

Example match_object_ambiguous :
  match_object "  SWORD " Sample.context = Ok [Sample.sword; Sample.doom].
Proof. vm_compute. reflexivity. Qed.

Example match_object_shared_id :
  match_object "#5" Sample.context = Ok [Sample.sword; Sample.twin].
Proof. vm_compute. reflexivity. Qed.

Example match_object_unknown :
  match_object "nothing at all" Sample.context = Ok [].
Proof. vm_compute. reflexivity. Qed.

(** An object listed twice in the context is returned twice. *)
Example match_object_repeats :
  match_object "bob"
    {| user := Sample.alice; room := Sample.hall; exits := [];
       users := [Sample.bob]; things := [Sample.bob] |}
  = Ok [Sample.bob; Sample.bob].
Proof. vm_compute. reflexivity. Qed.

(** An object without an integer identifier, or whose name is not a [str],
    makes the resolver raise. *)
Example match_object_raises :
  match_object "#5"
    {| user := ∅; room := Sample.hall; exits := []; users := [];
       things := [] |} = Raise KeyError
  /\ match_object "bob"
    {| user := {[ "name" := VInt 7 ]}; room := Sample.hall; exits := [];
       users := []; things := [] |} = Raise AttributeError.
Proof. split; vm_compute; reflexivity. Qed.

Example get_attribute_value_cases :
  get_attribute_value Sample.sword "name" = "Red Sword"
  /\ get_attribute_value Sample.sword "id" = "5"
  /\ get_attribute_value Sample.sword "colour" = EmptyString
  /\ get_attribute_value {[ "look" := VNone ]} "look" = EmptyString
  /\ get_attribute_value {[ "look" := VStr " #! describe()" ]} "look"
     = " #! describe()".
Proof. repeat split; vm_compute; reflexivity. Qed.

End LogicFacts.

(** ** The parser: shortcut dispatch and the exception boundary *)
Module ParserFacts.
Import Py Parser PyFacts.

Section Dispatch.
Context `{World}.

Lemma parse_trimmed user_id connection_id message_id message c remainder :
  strip message = String c remainder ->
  parse user_id connection_id message_id message =
    if bool_decide (c = dquote) then
      invoke (Shortcut say user_id connection_id message_id remainder)
    else if bool_decide (c = "!"%char) then
      invoke (Shortcut shout user_id connection_id message_id remainder)
    else if bool_decide (c = ":"%char) then
      invoke (Shortcut emote user_id connection_id message_id remainder)
    else if bool_decide (c = "@"%char) then
      invoke (Shortcut tell user_id connection_id message_id remainder)
    else
      let verb := first_token (String c remainder) in
      let args := after_token (String c remainder) in
      let ran := invoke (Verb user_id connection_id message_id verb args) in
      match raised ran with
      | Some UnknownVerb =>
          {| trace := trace ran ++ [Emitted user_id (huh verb)];
             raised := None |}
      | _ => ran
      end.
Proof. intros Hs. unfold parse. rewrite Hs. reflexivity. Qed.

(** C5: on a trimmed input that starts with the double quote, [!], [:] or
    [@], [parse] calls the say, shout, emote or tell handler with the user,
    the connection, the message id and the text after that one character,
    not trimmed further; so for the four inputs of the tests. *)
Theorem parse_shortcuts user_id connection_id message_id message c remainder :
  strip message = String c remainder ->
  (c = dquote ->
     parse user_id connection_id message_id message =
       invoke (Shortcut say user_id connection_id message_id remainder))
  /\ (c = "!"%char ->
     parse user_id connection_id message_id message =
       invoke (Shortcut shout user_id connection_id message_id remainder))
  /\ (c = ":"%char ->
     parse user_id connection_id message_id message =
       invoke (Shortcut emote user_id connection_id message_id remainder))
  /\ (c = "@"%char ->
     parse user_id connection_id message_id message =
       invoke (Shortcut tell user_id connection_id message_id remainder))
  /\ parse user_id connection_id message_id (String dquote "Hello") =
       invoke (Shortcut say user_id connection_id message_id "Hello")
  /\ parse user_id connection_id message_id "!Hello" =
       invoke (Shortcut shout user_id connection_id message_id "Hello")
  /\ parse user_id connection_id message_id ":waves" =
       invoke (Shortcut emote user_id connection_id message_id "waves")
  /\ parse user_id connection_id message_id "@user hello" =
       invoke (Shortcut tell user_id connection_id message_id "user hello").
Proof.
  intros Hs. rewrite (parse_trimmed _ _ _ _ _ _ Hs).
  repeat split; try (intros ->; reflexivity); reflexivity.
Qed.

(** C3: when [parse] raises, [eval] raises nothing; beyond the events of
    [parse] it produces one log entry, holding the user id, the connection
    id, the message id, the raw message and the exception, and then one
    message to the user; that message contains the message id and is built
    from the message id alone, whatever the exception says. *)
Theorem eval_contains_exception user_id connection_id message_id message ex :
  raised (parse user_id connection_id message_id (html_escape message))
    = Some ex ->
  let ran := eval user_id connection_id message message_id in
  raised ran = None
  /\ trace ran =
       trace (parse user_id connection_id message_id (html_escape message))
       ++ [Logged {| log_event := "Exception.";
                     log_user_id := user_id;
                     log_connection_id := connection_id;
                     log_message_id := message_id;
                     log_message := message;
                     log_exc_info := ex |};
           Emitted user_id (system_output (apology message_id))]
  /\ occurs_in message_id (system_output (apology message_id)).
Proof.
  intros Hex ran. subst ran. unfold eval. rewrite Hex. cbn [raised trace].
  split; [reflexivity|]. split; [reflexivity|].
  exists (SYSTEM_OUTPUT_before
          +:+ "Sorry. Something went wrong when processing your command. id: "),
    SYSTEM_OUTPUT_after.
  unfold system_output, apology. cbn [join].
  rewrite !append_assoc. reflexivity.
Qed.

End Dispatch.

Lemma parse_shortcuts_example :
  let W := Sample.quiet in
  (":"%char = dquote ->
     parse 1234 "c1" "m1" "  : waves  " =
       invoke (Shortcut say 1234 "c1" "m1" " waves"))
  /\ (":"%char = "!"%char ->
     parse 1234 "c1" "m1" "  : waves  " =
       invoke (Shortcut shout 1234 "c1" "m1" " waves"))
  /\ (":"%char = ":"%char ->
     parse 1234 "c1" "m1" "  : waves  " =
       invoke (Shortcut emote 1234 "c1" "m1" " waves"))
  /\ (":"%char = "@"%char ->
     parse 1234 "c1" "m1" "  : waves  " =
       invoke (Shortcut tell 1234 "c1" "m1" " waves"))
  /\ parse 1234 "c1" "m1" (String dquote "Hello") =
       invoke (Shortcut say 1234 "c1" "m1" "Hello")
  /\ parse 1234 "c1" "m1" "!Hello" =
       invoke (Shortcut shout 1234 "c1" "m1" "Hello")
  /\ parse 1234 "c1" "m1" ":waves" =
       invoke (Shortcut emote 1234 "c1" "m1" "waves")
  /\ parse 1234 "c1" "m1" "@user hello" =
       invoke (Shortcut tell 1234 "c1" "m1" "user hello").
Proof.
  intros W.
  apply (parse_shortcuts (H:=W) 1234 "c1" "m1" "  : waves  " ":"%char " waves").
  reflexivity.
Defined.

Lemma eval_contains_exception_example :
  let W := Sample.failing in
  let ran := eval 1234 "c1" "Hello, World!" "m1" in
  raised ran = None
  /\ trace ran =
       trace (parse 1234 "c1" "m1" (html_escape "Hello, World!"))
       ++ [Logged {| log_event := "Exception.";
                     log_user_id := 1234;
                     log_connection_id := "c1";
                     log_message_id := "m1";
                     log_message := "Hello, World!";
                     log_exc_info := Exception "boom!" |};
           Emitted 1234 (system_output (apology "m1"))]
  /\ occurs_in "m1" (system_output (apology "m1")).
Proof.
  intros W.
  apply (eval_contains_exception (H:=W) 1234 "c1" "m1" "Hello, World!"
           (Exception "boom!")).
  reflexivity.
Defined.

(** The behaviour the parser's tests look for. *)
Example parse_only_whitespace :
  @parse Sample.quiet 1234 "c1" "m1" "     " = {| trace := []; raised := None |}.
Proof. reflexivity. Qed.

Example parse_built_in_verb :
  @parse Sample.failing 1234 "c1" "m1" "foo bar"
  = @invoke Sample.failing (Verb 1234 "c1" "m1" "foo" "bar").
Proof. reflexivity. Qed.

Example parse_last_resort :
  @parse Sample.quiet 1234 "c1" "m1" "foo"
  = {| trace := [Dispatched (Verb 1234 "c1" "m1" "foo" EmptyString);
                 Emitted 1234 (String dquote "foo" +:+ String dquote ", Huh?")];
       raised := None |}.
Proof. reflexivity. Qed.

Example eval_escapes :
  @eval Sample.quiet 1234 "c1" "<b>Tom & Jerry</b>" "m1"
  = {| trace :=
         [Dispatched (Verb 1234 "c1" "m1" "&lt;b&gt;Tom" "&amp; Jerry&lt;/b&gt;");
          Emitted 1234
            (String dquote "&lt;b&gt;Tom" +:+ String dquote ", Huh?")];
       raised := None |}.
Proof. reflexivity. Qed.

End ParserFacts.

(** ** The resolver leaves the store as it found it *)
Module StoreFacts.
Import Py Store.

(** *** A small program logic for [M]

    [keeps h0 m Q]: started in any store in which the objects of [h0] are
    unchanged, [m] ends in such a store, and a value it returns satisfies
    [Q]. *)
Definition keeps {A : Type} (h0 : heap) (m : M A) (Q : A -> Prop) : Prop :=
  forall h, unchanged h0 h ->
    unchanged h0 (m h).2 /\ forall a, (m h).1 = Ok a -> Q a.

(** A reference to an object that [h0] does not hold. *)
Definition outside (h0 : heap) (v : val) : Prop :=
  forall l, v = Ref l -> h0 !! l = None.

Lemma unchanged_refl h : unchanged h h.
Proof. intros l c Hl. exact Hl. Qed.

Lemma unchanged_trans h1 h2 h3 :
  unchanged h1 h2 -> unchanged h2 h3 -> unchanged h1 h3.
Proof. intros H12 H23 l c Hl. apply H23, H12, Hl. Qed.

Section Logic.
Context {A B : Type} (h0 : heap).

Lemma keeps_weaken (m : M A) (Q Q' : A -> Prop) :
  keeps h0 m Q -> (forall a, Q a -> Q' a) -> keeps h0 m Q'.
Proof.
  intros Hm HQ h Hh. destruct (Hm h Hh) as [Hun Hres]. split; [exact Hun|].
  intros a Ha. apply HQ, Hres, Ha.
Qed.

Lemma keeps_ret (a : A) (Q : A -> Prop) : Q a -> keeps h0 (mret a) Q.
Proof. intros HQ h Hh. split; [exact Hh|]. now intros a' [= <-]. Qed.

Lemma keeps_lift (r : result A) : keeps h0 (lift r) (fun _ => True).
Proof. intros h Hh. split; [exact Hh | trivial]. Qed.

Lemma keeps_bind (m : M A) (f : A -> M B) (Q : A -> Prop) (R : B -> Prop) :
  keeps h0 m Q -> (forall a, Q a -> keeps h0 (f a) R) ->
  keeps h0 (m ≫= f) R.
Proof.
  intros Hm Hf h Hh. destruct (Hm h Hh) as [Hun Hres].
  unfold mbind, M_bind. destruct (m h) as [[a|e] h1]; simpl in *.
  - apply (Hf a (Hres a eq_refl) h1 Hun).
  - split; [exact Hun | discriminate].
Qed.

End Logic.

Section Primitives.
Context (h0 : heap).

Lemma keeps_new c : keeps h0 (new c) (outside h0).
Proof.
  intros h Hh. unfold new. simpl.
  assert (Hfresh : h !! fresh (dom h) = None)
    by (apply not_elem_of_dom, is_fresh).
  assert (Hout : h0 !! fresh (dom h) = None).
  { destruct (h0 !! fresh (dom h)) as [c'|] eqn:E; [|reflexivity].
    apply Hh in E. congruence. }
  split.
  - intros l c' Hl. rewrite lookup_insert_ne; [now apply Hh | congruence].
  - intros a [= <-] l [= <-]. exact Hout.
Qed.

Lemma keeps_getitem v key : keeps h0 (getitem v key) (fun _ => True).
Proof.
  intros h Hh. unfold getitem.
  destruct (cell_of h v) as [[d|l]|]; [destruct (d !! key)| |];
    (split; [exact Hh | trivial]).
Qed.

Lemma keeps_get v key dflt : keeps h0 (get v key dflt) (fun _ => True).
Proof.
  intros h Hh. unfold get.
  destruct (cell_of h v) as [[d|l]|]; (split; [exact Hh | trivial]).
Qed.

Lemma keeps_items v : keeps h0 (items v) (fun _ => True).
Proof.
  intros h Hh. unfold items.
  destruct v; try destruct (cell_of h _) as [[d|l']|];
    (split; [exact Hh | trivial]).
Qed.

Lemma keeps_elements v : keeps h0 (elements v) (fun _ => True).
Proof.
  intros h Hh. unfold elements.
  destruct (cell_of h v) as [[d|l]|]; (split; [exact Hh | trivial]).
Qed.

(** Appending writes one object; the objects of [h0] stay as they are when
    the list written is not one of them. *)
Lemma keeps_append v x : outside h0 v -> keeps h0 (append v x) (fun _ => True).
Proof.
  intros Hout h Hh. unfold append.
  destruct v as [| | | |l]; try (split; [exact Hh | trivial]).
  destruct (h !! l) as [[d|xs]|]; try (split; [exact Hh | trivial]).
  simpl. split; [|trivial].
  intros l' c Hl'. rewrite lookup_insert_ne; [now apply Hh|].
  intros ->. rewrite (Hout l' eq_refl) in Hl'. discriminate.
Qed.

Lemma keeps_concat a b : keeps h0 (concat a b) (outside h0).
Proof.
  unfold concat.
  eapply keeps_bind; [apply keeps_elements|]. intros la _.
  eapply keeps_bind; [apply keeps_elements|]. intros lb _.
  apply keeps_new.
Qed.

End Primitives.

Create HintDb keeps.

#[local] Hint Resolve keeps_getitem keeps_get keeps_items keeps_elements
  keeps_lift keeps_new keeps_concat : keeps.

(** One step of a sequence of statements. *)
Ltac step :=
  lazymatch goal with
  | |- keeps _ (mbind _ (new _)) _ =>
      eapply keeps_bind; [apply keeps_new | intros ? ?]
  | |- keeps _ (mbind _ (concat _ _)) _ =>
      eapply keeps_bind; [apply keeps_concat | intros ? ?]
  | |- keeps _ (mbind _ (append _ _)) _ =>
      eapply keeps_bind; [apply keeps_append; assumption | intros ? _]
  | |- keeps _ (mbind _ _) _ =>
      eapply keeps_bind; [solve [eauto with keeps] | intros ? _]
  end.

Section Resolver.
Context `{Logic.Defaults} (h0 : heap).

Lemma keeps_lower_into out xs :
  outside h0 out -> keeps h0 (lower_into out xs) (fun _ => True).
Proof.
  intros Hout. induction xs as [|alias rest IH]; cbn [lower_into].
  - now apply keeps_ret.
  - step. step. exact IH.
Qed.

Lemma keeps_matches_name name obj :
  keeps h0 (matches_name name obj) (fun _ => True).
Proof.
  unfold matches_name. step. step.
  destruct (bool_decide _); [now apply keeps_ret|].
  step. step. step. step.
  eapply keeps_bind; [now apply keeps_lower_into | intros ? _].
  step. destruct (bool_decide _); now apply keeps_ret.
Qed.

Lemma keeps_with_id object_id out objs :
  outside h0 out -> keeps h0 (with_id object_id out objs) (fun _ => True).
Proof.
  intros Hout. induction objs as [|obj rest IH]; cbn [with_id].
  - now apply keeps_ret.
  - step. eapply keeps_bind; [|intros ? _; exact IH].
    destruct (eq_int _ _); [now apply keeps_append | now apply keeps_ret].
Qed.

Lemma keeps_collect name objs matched_objects :
  outside h0 matched_objects ->
  keeps h0 (collect name objs matched_objects) (fun _ => True).
Proof.
  intros Hout. induction objs as [|obj rest IH]; cbn [collect].
  - now apply keeps_ret.
  - eapply keeps_bind; [apply keeps_matches_name | intros b _].
    eapply keeps_bind; [|intros ? _; exact IH].
    destruct b; [now apply keeps_append | now apply keeps_ret].
Qed.

Lemma keeps_scan candidate_objects words word_list matched_objects :
  outside h0 word_list -> outside h0 matched_objects ->
  keeps h0 (scan candidate_objects words word_list matched_objects)
    (fun _ => True).
Proof.
  intros Hwl Hmo. induction words as [|word rest IH]; cbn [scan].
  - now apply keeps_ret.
  - step. step. step. step.
    eapply keeps_bind; [now apply keeps_collect | intros ? _].
    eapply keeps_bind; [apply keeps_elements | intros found _].
    destruct found; [exact IH | now apply keeps_ret].
Qed.

Lemma keeps_match_object identifier context :
  keeps h0 (match_object identifier context) (fun _ => True).
Proof.
  unfold match_object.
  destruct (is_empty _).
  { eapply keeps_weaken; [apply keeps_new | trivial]. }
  destruct (split _) as [|first rest]; [apply keeps_lift|].
  destruct (bool_decide (first ∈ Logic.USER_ALIASES)).
  { step. eapply keeps_weaken; [apply keeps_new | trivial]. }
  destruct (bool_decide (first ∈ Logic.ROOM_ALIASES)).
  { step. eapply keeps_weaken; [apply keeps_new | trivial]. }
  step. step. step. step. step. step. step. step. step.
  destruct (Logic.MATCH_OBJECT_ID first).
  - step. step. step.
    eapply keeps_bind; [now apply keeps_with_id | intros ? _].
    now apply keeps_ret.
  - step. step. now apply keeps_scan.
Qed.

End Resolver.

(** *** The store resolver computes what the resolver on contents computes *)

Lemma rep_value_mono h h' :
  unchanged h h' -> forall v pv, rep_value h v pv -> rep_value h' v pv.
Proof.
  intros Hun. fix IH 3. intros v pv Hr.
  destruct Hr as [ | b | z | s | l xs vs Hl Hall]; try constructor.
  apply (rep_list h' l xs vs); [apply Hun, Hl|].
  clear Hl. induction Hall as [|x pv xs vs Hx _ IHall]; constructor.
  - apply IH, Hx.
  - exact IHall.
Qed.

Lemma rep_object_mono h h' v o :
  unchanged h h' -> rep_object h v o -> rep_object h' v o.
Proof.
  intros Hun (l & d & -> & Hl & Hd). exists l, d. split; [reflexivity|].
  split; [apply Hun, Hl|]. intros k.
  destruct (Hd k) as [x pv Hx|]; constructor.
  now apply (rep_value_mono h h').
Qed.

Lemma rep_objects_items_mono h h' xs os :
  unchanged h h' -> Forall2 (rep_object h) xs os -> Forall2 (rep_object h') xs os.
Proof.
  intros Hun. induction 1; constructor; eauto using rep_object_mono.
Qed.

Lemma rep_lower h v pv : rep_value h v pv -> val_lower v = value_lower pv.
Proof. now destruct 1. Qed.

Lemma rep_eq_int h v pv z : rep_value h v pv -> Store.eq_int v z = Py.eq_int pv z.
Proof. now destruct 1. Qed.

Lemma run_bind {A B} (m : M A) (f : A -> M B) h :
  (m ≫= f) h =
    match m h with
    | (Ok a, h') => f a h'
    | (Raise e, h') => (Raise e, h')
    end.
Proof. reflexivity. Qed.

Lemma run_lift {A B} (r : result A) (f : A -> M B) h :
  (lift r ≫= f) h = match r with Ok a => f a h | Raise e => (Raise e, h) end.
Proof. now destruct r. Qed.

Lemma run_append {B} l xs x (f : unit -> M B) h :
  h !! l = Some (List xs) ->
  (append (Ref l) x ≫= f) h = f tt (<[l := List (xs ++ [x])]> h).
Proof. intros Hl. rewrite run_bind. unfold append. now rewrite Hl. Qed.

Lemma run_new {B} c (f : val -> M B) h :
  (new c ≫= f) h = f (Ref (fresh (dom h))) (<[fresh (dom h) := c]> h).
Proof. reflexivity. Qed.

Lemma run_elements {B} l xs (f : list val -> M B) h :
  h !! l = Some (List xs) -> (elements (Ref l) ≫= f) h = f xs h.
Proof. intros Hl. rewrite run_bind. unfold elements. cbn. now rewrite Hl. Qed.

Lemma run_getitem {B} l d key x (f : val -> M B) h :
  h !! l = Some (Dict d) -> d !! key = Some x ->
  (getitem (Ref l) key ≫= f) h = f x h.
Proof.
  intros Hl Hk. rewrite run_bind. unfold getitem. cbn. now rewrite Hl, Hk.
Qed.

Lemma run_get {B} l d key dflt (f : val -> M B) h :
  h !! l = Some (Dict d) ->
  (get (Ref l) key dflt ≫= f) h = f (default dflt (d !! key)) h.
Proof. intros Hl. rewrite run_bind. unfold get. cbn. now rewrite Hl. Qed.

Lemma fresh_None (h : heap) : h !! fresh (dom h) = None.
Proof. apply not_elem_of_dom, is_fresh. Qed.

Lemma unchanged_insert (h : heap) l c :
  h !! l = None -> unchanged h (<[l := c]> h).
Proof.
  intros Hl l' c' Hl'. rewrite lookup_insert_ne; [assumption | congruence].
Qed.

Lemma lower_into_run la xs vs :
  Forall2 (fun x pv => val_lower x = value_lower pv) xs vs ->
  forall h acc, h !! la = Some (List acc) ->
  match comprehension value_lower vs with
  | Ok ss => exists h', lower_into (Ref la) xs h = (Ok tt, h') /\
               h' !! la = Some (List (acc ++ (RStr <$> ss)))
  | Raise e => exists h', lower_into (Ref la) xs h = (Raise e, h')
  end.
Proof.
  induction 1 as [|x pv xs vs Hx _ IH]; intros h acc Hla.
  - cbn. exists h. split; [reflexivity|]. now rewrite app_nil_r.
  - cbn [lower_into comprehension]. rewrite run_lift, Hx.
    destruct (value_lower pv) as [s|e]; cbn [mbind result_bind]; [|eauto].
    rewrite (run_append _ _ _ _ _ Hla).
    specialize (IH (<[la := List (acc ++ [RStr s])]> h) (acc ++ [RStr s])
                  (lookup_insert_eq _ _ _)).
    destruct (comprehension value_lower vs) as [ss|e]; cbn [mbind result_bind].
    + destruct IH as (h' & Hrun & Hl). exists h'. split; [exact Hrun|].
      rewrite Hl, fmap_cons, <- app_assoc. reflexivity.
    + exact IH.
Qed.

Lemma rep_chars h s : Forall2 (rep_value h) (Store.chars s) (Py.chars s).
Proof. induction s; cbn; constructor; auto using rep_str. Qed.

Lemma rep_lower_all h xs vs :
  Forall2 (rep_value h) xs vs ->
  Forall2 (fun x pv => val_lower x = value_lower pv) xs vs.
Proof. induction 1; constructor; eauto using rep_lower. Qed.

Lemma items_run h v pv :
  rep_value h v pv ->
  match iter pv with
  | Ok vs => exists xs, items v h = (Ok xs, h) /\ Forall2 (rep_value h) xs vs
  | Raise e => items v h = (Raise e, h)
  end.
Proof.
  destruct 1 as [ | b | z | s | l xs vs Hl Hall]; cbn; try reflexivity.
  - exists (Store.chars s). split; [reflexivity | apply rep_chars].
  - unfold items. cbn. rewrite Hl. eauto.
Qed.

Section Agreement.
Context `{Logic.Defaults}.

Lemma elem_of_RStr name (ss : list string) : RStr name ∈ RStr <$> ss <-> name ∈ ss.
Proof.
  rewrite list_elem_of_fmap. split.
  - now intros (s & [= <-] & Hin).
  - eauto.
Qed.

Lemma matches_name_run name obj o h :
  rep_object h obj o ->
  (matches_name name obj h).1 = Logic.matches_name name o.
Proof.
  intros (l & d & -> & Hl & Hd).
  unfold matches_name, Logic.matches_name, Logic.get.
  rewrite (run_get _ _ _ _ _ _ Hl).
  assert (Hname : rep_value h (default (RStr EmptyString) (d !! Logic.NAME))
                    (default (VStr EmptyString) (o !! Logic.NAME))).
  { destruct (Hd Logic.NAME); [assumption | constructor]. }
  rewrite run_lift, (rep_lower _ _ _ Hname).
  destruct (value_lower _) as [obj_name|e]; cbn [mbind result_bind]; [|reflexivity].
  destruct (bool_decide (obj_name = lower name)); [reflexivity|].
  rewrite run_new.
  set (le := fresh (dom h)). set (h1 := <[le := List []]> h).
  assert (Hun1 : unchanged h h1) by apply unchanged_insert, fresh_None.
  rewrite (run_get _ _ _ _ _ _ (Hun1 _ _ Hl)).
  assert (Halias : rep_value h1 (default (Ref le) (d !! Logic.ALIAS))
                     (default (VList []) (o !! Logic.ALIAS))).
  { destruct (Hd Logic.ALIAS) as [x pv Hx|]; cbn.
    - now apply (rep_value_mono h h1).
    - apply (rep_list h1 le [] []); [apply lookup_insert_eq | constructor]. }
  rewrite run_bind. pose proof (items_run _ _ _ Halias) as Hit.
  destruct (iter _) as [vs|e]; cbn [mbind result_bind].
  2: { now rewrite Hit. }
  destruct Hit as (xs & -> & Hall).
  rewrite run_new.
  set (la := fresh (dom h1)). set (h2 := <[la := List []]> h1).
  rewrite run_bind.
  pose proof (lower_into_run la xs vs (rep_lower_all _ _ _ Hall) h2 []
                (lookup_insert_eq _ _ _)) as Hlow.
  destruct (comprehension value_lower vs) as [ss|e]; cbn [mbind result_bind].
  2: { destruct Hlow as (h' & ->). reflexivity. }
  destruct Hlow as (h3 & -> & Hla).
  rewrite (run_elements _ _ _ _ Hla), app_nil_l.
  destruct (decide (lower name ∈ ss)) as [Hin|Hout].
  - rewrite !bool_decide_eq_true_2; [reflexivity | assumption | now apply elem_of_RStr].
  - rewrite !bool_decide_eq_false_2; [reflexivity | assumption | now rewrite elem_of_RStr].
Qed.

End Agreement.

Section Loops.
Context `{Logic.Defaults}.

Lemma matches_name_sim name obj o h :
  rep_object h obj o ->
  exists h', matches_name name obj h = (Logic.matches_name name o, h') /\
             unchanged h h'.
Proof.
  intros Hrep. exists (matches_name name obj h).2. split.
  - rewrite <- (matches_name_run name obj o h Hrep).
    now destruct (matches_name name obj h).
  - apply (keeps_matches_name h name obj h), unchanged_refl.
Qed.

Lemma run_concat {B} la xa lb xb (f : val -> M B) h :
  h !! la = Some (List xa) -> h !! lb = Some (List xb) ->
  (concat (Ref la) (Ref lb) ≫= f) h =
    f (Ref (fresh (dom h))) (<[fresh (dom h) := List (xa ++ xb)]> h).
Proof.
  intros Ha Hb. unfold concat. rewrite run_bind.
  rewrite (run_elements _ _ _ _ Ha), (run_elements _ _ _ _ Hb). reflexivity.
Qed.

Lemma strings_RStr (ss : list string) : strings (RStr <$> ss) = Ok ss.
Proof.
  induction ss as [|s r IH]; [reflexivity|].
  rewrite fmap_cons. cbn [strings]. now rewrite IH.
Qed.

Section Base.
Context (h0 : heap).

Lemma with_id_run object_id lm objs os :
  Forall2 (rep_object h0) objs os ->
  h0 !! lm = None ->
  forall h acc, unchanged h0 h -> h !! lm = Some (List acc) ->
  exists h', unchanged h0 h' /\
    match Logic.with_id object_id os with
    | Ok found =>
        with_id object_id (Ref lm) objs h = (Ok tt, h') /\
        exists more, h' !! lm = Some (List (acc ++ more)) /\
                     Forall2 (rep_object h0) more found
    | Raise e => with_id object_id (Ref lm) objs h = (Raise e, h')
    end.
Proof.
  intros Hall Hlm. induction Hall as [|obj o objs os Hobj _ IH];
    intros h acc Hun Hacc.
  - exists h. split; [assumption|]. cbn. split; [reflexivity|].
    exists []. rewrite app_nil_r. split; [assumption | constructor].
  - cbn [with_id Logic.with_id].
    pose proof Hobj as (l & d & -> & Hl & Hd).
    unfold Logic.getitem. rewrite run_bind. unfold getitem. cbn [cell_of].
    rewrite (Hun _ _ Hl).
    destruct (Hd "id") as [v pv Hv|]; cbn [mbind result_bind].
    2: { exists h. split; [assumption | reflexivity]. }
    rewrite (rep_eq_int _ _ _ object_id Hv).
    destruct (Py.eq_int pv object_id).
    + rewrite (run_append _ _ _ _ _ Hacc).
      set (h1 := <[lm := List (acc ++ [Ref l])]> h).
      assert (Hun1 : unchanged h0 h1).
      { intros l' c Hl'. unfold h1. rewrite lookup_insert_ne; [now apply Hun|].
        intros ->. congruence. }
      destruct (IH h1 (acc ++ [Ref l]) Hun1 (lookup_insert_eq _ _ _))
        as (h' & Hun' & Hres).
      exists h'. split; [assumption|].
      destruct (Logic.with_id object_id os) as [found|e]; cbn [mbind result_bind];
        [|exact Hres].
      destruct Hres as (Hrun & more & Hmore & Hrep). split; [exact Hrun|].
      exists (Ref l :: more). rewrite Hmore, <- app_assoc. split; [reflexivity|].
      now constructor.
    + rewrite run_bind. change ((mret tt : M unit) h) with (Ok tt, h).
      destruct (IH h acc Hun Hacc) as (h' & Hun' & Hres).
      exists h'. split; [assumption|].
      destruct (Logic.with_id object_id os) as [found|e]; cbn [mbind result_bind];
        exact Hres.
Qed.

Lemma collect_run name lm objs os :
  Forall2 (rep_object h0) objs os ->
  h0 !! lm = None ->
  forall h acc accp, unchanged h0 h -> h !! lm = Some (List acc) ->
  Forall2 (rep_object h0) acc accp ->
  exists h', unchanged h0 h' /\
    (forall l c, l <> lm -> h !! l = Some c -> h' !! l = Some c) /\
    match Logic.collect name os accp with
    | Ok res =>
        collect name objs (Ref lm) h = (Ok tt, h') /\
        exists acc', h' !! lm = Some (List acc') /\
                     Forall2 (rep_object h0) acc' res
    | Raise e => collect name objs (Ref lm) h = (Raise e, h')
    end.
Proof.
  intros Hall Hlm. induction Hall as [|obj o objs os Hobj _ IH];
    intros h acc accp Hun Hacc Hrep.
  - exists h. split; [assumption|]. split; [auto|]. cbn. eauto.
  - cbn [collect Logic.collect].
    destruct (matches_name_sim name obj o h) as (h1 & Hrun & Hun1).
    { now apply (rep_object_mono h0 h). }
    rewrite run_bind, Hrun.
    assert (Hun01 : unchanged h0 h1) by now apply (unchanged_trans h0 h h1).
    destruct (Logic.matches_name name o) as [b|e]; cbn [mbind result_bind].
    2: { exists h1. split; [assumption|]. split; [|reflexivity].
         intros l c _ Hl. now apply Hun1. }
    destruct b.
    + rewrite (run_append _ _ _ _ _ (Hun1 _ _ Hacc)).
      set (h2 := <[lm := List (acc ++ [obj])]> h1).
      assert (Hun2 : unchanged h0 h2).
      { intros l' c Hl'. unfold h2. rewrite lookup_insert_ne; [now apply Hun01|].
        intros ->. congruence. }
      destruct (IH h2 (acc ++ [obj]) (accp ++ [o]) Hun2 (lookup_insert_eq _ _ _))
        as (h' & Hun' & Hkeep & Hres).
      { apply Forall2_app; [assumption | now constructor]. }
      exists h'. split; [assumption|]. split; [|exact Hres].
      intros l c Hne Hl. apply Hkeep; [assumption|].
      unfold h2. rewrite lookup_insert_ne; [now apply Hun1 | congruence].
    + rewrite run_bind. change ((mret tt : M unit) h1) with (Ok tt, h1).
      destruct (IH h1 acc accp Hun01 (Hun1 _ _ Hacc) Hrep)
        as (h' & Hun' & Hkeep & Hres).
      exists h'. split; [assumption|]. split; [|exact Hres].
      intros l c Hne Hl. apply Hkeep; [assumption | now apply Hun1].
Qed.

Lemma scan_run lc lw lm objs os :
  Forall2 (rep_object h0) objs os ->
  lc <> lw -> lc <> lm -> lw <> lm ->
  h0 !! lw = None -> h0 !! lm = None ->
  forall words wl h, unchanged h0 h ->
  h !! lc = Some (List objs) ->
  h !! lw = Some (List (RStr <$> wl)) ->
  h !! lm = Some (List []) ->
  exists h', unchanged h0 h' /\
    match Logic.scan os words wl [] with
    | Ok res =>
        scan (Ref lc) words (Ref lw) (Ref lm) h = (Ok (Ref lm), h') /\
        exists acc, h' !! lm = Some (List acc) /\
                    Forall2 (rep_object h0) acc res
    | Raise e => scan (Ref lc) words (Ref lw) (Ref lm) h = (Raise e, h')
    end.
Proof.
  intros Hall Hcw Hcm Hwm Hlw Hlm.
  induction words as [|word rest IH]; intros wl h Hun Hc Hw Hm.
  - exists h. split; [assumption|]. cbn. split; [reflexivity|].
    exists []. split; [assumption | constructor].
  - cbn [scan Logic.scan].
    rewrite (run_append _ _ _ _ _ Hw).
    set (h1 := <[lw := List ((RStr <$> wl) ++ [RStr word])]> h).
    assert (Hw1 : h1 !! lw = Some (List (RStr <$> (wl ++ [word])))).
    { unfold h1. rewrite lookup_insert_eq, fmap_app. reflexivity. }
    assert (Hun1 : unchanged h0 h1).
    { intros l' c Hl'. unfold h1. rewrite lookup_insert_ne; [now apply Hun|].
      intros ->. congruence. }
    assert (Hc1 : h1 !! lc = Some (List objs)).
    { unfold h1. rewrite lookup_insert_ne; [assumption | congruence]. }
    assert (Hm1 : h1 !! lm = Some (List [])).
    { unfold h1. rewrite lookup_insert_ne; [assumption | congruence]. }
    rewrite (run_elements _ _ _ _ Hw1), run_lift, strings_RStr.
    rewrite (run_elements _ _ _ _ Hc1).
    assert (Hnil : Forall2 (rep_object h0) [] []) by constructor.
    destruct (collect_run (join " " (wl ++ [word])) lm objs os Hall Hlm
                h1 [] [] Hun1 Hm1 Hnil)
      as (h2 & Hun2 & Hkeep & Hres).
    rewrite run_bind.
    destruct (Logic.collect _ os []) as [res|e]; cbn [mbind result_bind].
    2: { rewrite Hres. exists h2. split; [assumption | reflexivity]. }
    destruct Hres as (-> & acc & Hacc & Hrep).
    rewrite (run_elements _ _ _ _ Hacc).
    destruct Hrep as [|x o acc res Hx Hrest].
    + apply (IH (wl ++ [word]) h2 Hun2).
      * apply Hkeep; [congruence | assumption].
      * apply Hkeep; [congruence | assumption].
      * assumption.
    + exists h2. split; [assumption|]. split; [reflexivity|].
      exists (x :: acc). split; [assumption | now constructor].
Qed.

End Base.
End Loops.

Lemma fresh_outside (h h' : heap) : unchanged h h' -> h !! fresh (dom h') = None.
Proof.
  intros Hun. destruct (h !! fresh (dom h')) as [c|] eqn:E; [|reflexivity].
  apply Hun in E. rewrite fresh_None in E. discriminate.
Qed.

Lemma fresh_ne (h : heap) l c : h !! l = Some c -> l <> fresh (dom h).
Proof. intros Hl ->. rewrite fresh_None in Hl. discriminate. Qed.

Lemma rep_objects_new h h' l xs os :
  unchanged h h' -> h' !! l = Some (List xs) ->
  Forall2 (rep_object h) xs os -> rep_objects h' (Ref l) os.
Proof.
  intros Hun Hl Hall. exists l, xs. split; [reflexivity|]. split; [assumption|].
  now apply (rep_objects_items_mono h h').
Qed.

Section Whole.
Context `{Logic.Defaults}.

Lemma match_object_agrees identifier ctx c h :
  rep_context h ctx c ->
  stands_for (match_object identifier ctx h) (Logic.match_object identifier c).
Proof.
  intros (lx & d & u & r & es & us & ts & -> & Hlx & Hu & Hr & Hes & Hus & Hts
          & Ru & Rr & Res & Rus & Rts).
  unfold match_object, Logic.match_object.
  destruct (is_empty _).
  { unfold stands_for, new. cbn.
    apply (rep_objects_new h _ _ [] []);
      [apply unchanged_insert, fresh_None | apply lookup_insert_eq | constructor]. }
  destruct (split _) as [|first rest]; [reflexivity|].
  destruct (bool_decide (first ∈ Logic.USER_ALIASES)).
  { rewrite (run_getitem _ _ _ _ _ _ Hlx Hu). unfold stands_for, new. cbn.
    apply (rep_objects_new h _ _ [u] [Logic.user c]);
      [apply unchanged_insert, fresh_None | apply lookup_insert_eq |].
    constructor; [assumption | constructor]. }
  destruct (bool_decide (first ∈ Logic.ROOM_ALIASES)).
  { rewrite (run_getitem _ _ _ _ _ _ Hlx Hr). unfold stands_for, new. cbn.
    apply (rep_objects_new h _ _ [r] [Logic.room c]);
      [apply unchanged_insert, fresh_None | apply lookup_insert_eq |].
    constructor; [assumption | constructor]. }
  destruct Res as (le & xe & -> & Hle & Rxe).
  destruct Rus as (lu & xu & -> & Hlu & Rxu).
  destruct Rts as (lt & xt & -> & Hlt & Rxt).
  rewrite (run_getitem _ _ _ _ _ _ Hlx Hu), (run_getitem _ _ _ _ _ _ Hlx Hr).
  rewrite run_new.
  set (l1 := fresh (dom h)). set (h1 := <[l1 := List [u; r]]> h).
  assert (U1 : unchanged h h1) by apply unchanged_insert, fresh_None.
  rewrite (run_getitem _ _ _ _ _ _ (U1 _ _ Hlx) Hes).
  rewrite (run_concat l1 [u; r] le xe _ h1 (lookup_insert_eq _ _ _) (U1 _ _ Hle)).
  set (l2 := fresh (dom h1)). set (h2 := <[l2 := List ([u; r] ++ xe)]> h1).
  assert (U12 : unchanged h1 h2) by apply unchanged_insert, fresh_None.
  assert (U2 : unchanged h h2) by now apply (unchanged_trans h h1 h2).
  rewrite (run_getitem _ _ _ _ _ _ (U2 _ _ Hlx) Hus).
  rewrite (run_concat l2 ([u; r] ++ xe) lu xu _ h2 (lookup_insert_eq _ _ _)
             (U2 _ _ Hlu)).
  set (l3 := fresh (dom h2)). set (h3 := <[l3 := List (([u; r] ++ xe) ++ xu)]> h2).
  assert (U23 : unchanged h2 h3) by apply unchanged_insert, fresh_None.
  assert (U3 : unchanged h h3) by now apply (unchanged_trans h h2 h3).
  rewrite (run_getitem _ _ _ _ _ _ (U3 _ _ Hlx) Hts).
  rewrite (run_concat l3 (([u; r] ++ xe) ++ xu) lt xt _ h3 (lookup_insert_eq _ _ _)
             (U3 _ _ Hlt)).
  set (lc := fresh (dom h3)).
  set (objs := (([u; r] ++ xe) ++ xu) ++ xt).
  set (h4 := <[lc := List objs]> h3).
  assert (U34 : unchanged h3 h4) by apply unchanged_insert, fresh_None.
  assert (U4 : unchanged h h4) by now apply (unchanged_trans h h3 h4).
  assert (Hc4 : h4 !! lc = Some (List objs)) by apply lookup_insert_eq.
  assert (Robjs : Forall2 (rep_object h) objs (Logic.candidate_objects c)).
  { unfold objs, Logic.candidate_objects. rewrite <- !app_assoc.
    repeat apply Forall2_app; try assumption.
    constructor; [assumption|]. constructor; [assumption | constructor]. }
  destruct (Logic.MATCH_OBJECT_ID first).
  - rewrite run_lift.
    destruct (int (tail first)) as [object_id|e]; cbn [mbind result_bind];
      [|reflexivity].
    rewrite (run_elements _ _ _ _ Hc4), run_new.
    set (lm := fresh (dom h4)). set (h5 := <[lm := List []]> h4).
    assert (U45 : unchanged h4 h5) by apply unchanged_insert, fresh_None.
    assert (U5 : unchanged h h5) by now apply (unchanged_trans h h4 h5).
    destruct (with_id_run h object_id lm objs _ Robjs (fresh_outside _ _ U4)
                h5 [] U5 (lookup_insert_eq _ _ _)) as (h' & Hun' & Hres).
    rewrite run_bind.
    destruct (Logic.with_id object_id _) as [found|e].
    + destruct Hres as (-> & more & Hmore & Hrep). cbn.
      now apply (rep_objects_new h h' lm more found).
    + now rewrite Hres.
  - rewrite run_new.
    set (lm := fresh (dom h4)). set (h5 := <[lm := List []]> h4).
    assert (U45 : unchanged h4 h5) by apply unchanged_insert, fresh_None.
    assert (U5 : unchanged h h5) by now apply (unchanged_trans h h4 h5).
    rewrite run_new.
    set (lw := fresh (dom h5)). set (h6 := <[lw := List []]> h5).
    assert (U56 : unchanged h5 h6) by apply unchanged_insert, fresh_None.
    assert (U6 : unchanged h h6) by now apply (unchanged_trans h h5 h6).
    assert (Hm5 : h5 !! lm = Some (List [])) by apply lookup_insert_eq.
    destruct (scan_run h lc lw lm objs _ Robjs) with
      (words := first :: rest) (wl := @nil string) (h := h6)
      as (h' & Hun' & Hres).
    + apply (fresh_ne h5 lc (List objs)), U45, Hc4.
    + apply (fresh_ne h4 lc (List objs)), Hc4.
    + intros Heq. apply (fresh_ne h5 lm (List []) Hm5). now symmetry.
    + apply (fresh_outside _ _ U5).
    + apply (fresh_outside _ _ U4).
    + assumption.
    + apply U56, U45, Hc4.
    + apply lookup_insert_eq.
    + apply U56, Hm5.
    + destruct (Logic.scan _ _ _ _) as [res|e].
      * destruct Hres as (-> & acc & Hacc & Hrep). cbn.
        now apply (rep_objects_new h h' lm acc res).
      * now rewrite Hres.
Qed.

Lemma rep_objects_mono h h' v os :
  unchanged h h' -> rep_objects h v os -> rep_objects h' v os.
Proof.
  intros Hun (l & xs & -> & Hl & Hall).
  apply (rep_objects_new h h' l xs os Hun (Hun _ _ Hl) Hall).
Qed.

Lemma rep_context_mono h h' v c :
  unchanged h h' -> rep_context h v c -> rep_context h' v c.
Proof.
  intros Hun (l & d & u & r & es & us & ts & -> & Hl & Hu & Hr & Hes & Hus & Hts
              & Ru & Rr & Res & Rus & Rts).
  exists l, d, u, r, es, us, ts.
  repeat split; try assumption;
    eauto using rep_object_mono, rep_objects_mono.
Qed.

(** C9: [match_object] and [matches_name] are pure queries.  Whatever they
    are called on, every object that is in the store before the call is in
    it afterwards with the same content, so no field of the context, of its
    user, room, exits, users and things, or of the object passed to
    [matches_name] is written, and the arguments still have their content
    after the call.  And the outcome is a function of the contents of the
    arguments: on any store in which the context has the content [c], the
    call ends with the exception, or with a list of the objects, that the
    resolver computes from the identifier and [c]; likewise for
    [matches_name]. *)
Theorem resolver_is_pure :
  (forall identifier context h,
     unchanged h (store_after (match_object identifier context) h))
  /\ (forall name obj h,
       unchanged h (store_after (matches_name name obj) h))
  /\ (forall identifier context c h,
       rep_context h context c ->
       rep_context (store_after (match_object identifier context) h) context c
       /\ stands_for (match_object identifier context h)
            (Logic.match_object identifier c))
  /\ (forall name obj o h,
       rep_object h obj o ->
       rep_object (store_after (matches_name name obj) h) obj o
       /\ result_of (matches_name name obj) h = Logic.matches_name name o).
Proof.
  assert (Hframe : forall identifier context h,
    unchanged h (store_after (match_object identifier context) h)).
  { intros identifier context h.
    apply (keeps_match_object h identifier context h), unchanged_refl. }
  assert (Hframe' : forall name obj h,
    unchanged h (store_after (matches_name name obj) h)).
  { intros name obj h.
    apply (keeps_matches_name h name obj h), unchanged_refl. }
  split; [exact Hframe|]. split; [exact Hframe'|]. split.
  - intros identifier context c h Hrep. split.
    + apply (rep_context_mono h); [apply Hframe | assumption].
    + now apply match_object_agrees.
  - intros name obj o h Hrep. split.
    + apply (rep_object_mono h); [apply Hframe' | assumption].
    + now apply matches_name_run.
Qed.

End Whole.

(** *** The sample store *)

#[local] Existing Instance Sample.defaults.

Ltac known_key k key :=
  destruct (decide (k = key)) as [->|?];
  [ vm_compute; repeat econstructor | ].

Ltac other_key :=
  rewrite ?lookup_insert_ne, ?lookup_singleton_ne by congruence; constructor.

Lemma sample_alice : rep_object Sample.store (Ref 2) Sample.alice.
Proof.
  exists 2%positive, Sample.alice_dict.
  split; [reflexivity|]. split; [reflexivity|]. intros k.
  known_key k "id". known_key k "name". known_key k "alias".
  unfold Sample.alice_dict, Sample.alice, Sample.object. other_key.
Qed.

Lemma sample_hall : rep_object Sample.store (Ref 3) Sample.bare_hall.
Proof.
  exists 3%positive, Sample.hall_dict.
  split; [reflexivity|]. split; [reflexivity|]. intros k.
  known_key k "id". known_key k "name".
  unfold Sample.hall_dict, Sample.bare_hall. other_key.
Qed.

Lemma sample_sword : rep_object Sample.store (Ref 7) Sample.sword.
Proof.
  exists 7%positive, Sample.sword_dict.
  split; [reflexivity|]. split; [reflexivity|]. intros k.
  known_key k "id". known_key k "name". known_key k "alias".
  unfold Sample.sword_dict, Sample.sword, Sample.object. other_key.
Qed.

Lemma sample_context : rep_context Sample.store (Ref 1) Sample.small.
Proof.
  exists 1%positive, Sample.context_dict, (Ref 2), (Ref 3), (Ref 4), (Ref 4), (Ref 5).
  repeat split; try reflexivity.
  - apply sample_alice.
  - apply sample_hall.
  - exists 4%positive, []. repeat split; constructor.
  - exists 4%positive, []. repeat split; constructor.
  - exists 5%positive, [Ref 7]. repeat split.
    constructor; [apply sample_sword | constructor].
Qed.

(** On the sample store the name [Sword] selects the thing at location 7:
    the call returns a new list that holds the reference to it, the store it
    started from is untouched, and the outcome is the one the resolver
    computes from the contents. *)
Example match_object_on_store :
  result_of (match_object "Sword" (Ref 1)) Sample.store = Ok (Ref 13)
  /\ store_after (match_object "Sword" (Ref 1)) Sample.store !! 13%positive
     = Some (List [Ref 7])
  /\ Logic.match_object "Sword" Sample.small = Ok [Sample.sword].
Proof. repeat split; vm_compute; reflexivity. Qed.

Lemma resolver_is_pure_example :
  rep_context (store_after (match_object "Sword" (Ref 1)) Sample.store)
    (Ref 1) Sample.small
  /\ stands_for (match_object "Sword" (Ref 1) Sample.store)
       (Logic.match_object "Sword" Sample.small).
Proof. apply resolver_is_pure, sample_context. Defined.

End StoreFacts.

(** ** Integers and their printed form *)
Module NumeralFacts.
Import Py PyFacts.

Lemma decimal_of_uint_acc u acc :
  decimal_from (Zpos acc) (NilEmpty.string_of_uint u) = Zpos (Pos.of_uint_acc u acc).
Proof.
  revert acc.
  induction u; intros acc;
    cbn [NilEmpty.string_of_uint decimal_from Pos.of_uint_acc];
    [reflexivity | ..];
    rewrite <- IHu; f_equal;
    match goal with
    | |- context [digit_of ?c] =>
        let d := eval vm_compute in (digit_of c) in
        change (digit_of c) with d
    end; cbn [default from_option]; unfold id; lia.
Qed.

Lemma decimal_of_uint u :
  decimal (NilEmpty.string_of_uint u) = Z.of_N (Pos.of_uint u).
Proof.
  unfold decimal.
  induction u; cbn [NilEmpty.string_of_uint decimal_from Pos.of_uint];
    [reflexivity | exact IHu | ..]; apply (decimal_of_uint_acc u).
Qed.

Lemma all_digits_uint u : all_digits (NilEmpty.string_of_uint u) = true.
Proof. induction u; cbn [NilEmpty.string_of_uint all_digits]; [reflexivity | ..]; exact IHu. Qed.

Lemma string_of_pos p :
  NilZero.string_of_uint (Pos.to_uint p) = NilEmpty.string_of_uint (Pos.to_uint p).
Proof.
  pose proof (Unsigned.to_uint_nonnil p) as Hne.
  destruct (Pos.to_uint p); [congruence | reflexivity ..].
Qed.

Lemma string_of_pos_nonempty p :
  NilEmpty.string_of_uint (Pos.to_uint p) <> EmptyString.
Proof.
  pose proof (Unsigned.to_uint_nonnil p) as Hne.
  destruct (Pos.to_uint p); [congruence | discriminate ..].
Qed.

Lemma decimal_of_pos p : decimal (NilEmpty.string_of_uint (Pos.to_uint p)) = Zpos p.
Proof. now rewrite decimal_of_uint, Unsigned.of_to. Qed.

Lemma int_unsigned_digits s :
  s <> EmptyString -> all_digits s = true -> int_unsigned s = Some (decimal s).
Proof.
  intros Hne Hs. destruct s as [|c r]; [congruence|].
  pose proof Hs as [Hc _]%andb_true_iff.
  unfold int_unsigned. rewrite Hc. now apply int_digits_decimal.
Qed.

Lemma int_minus_digits s :
  s <> EmptyString -> all_digits s = true ->
  int (String "-" s) = Ok (- decimal s)%Z.
Proof.
  intros Hne Hs. unfold int.
  assert (Hstrip : strip (String "-" s) = String "-" s).
  { unfold strip. cbn [lstrip]. change (isspace "-") with false. cbn [rstrip].
    change (isspace "-") with false. now rewrite rstrip_digits. }
  rewrite Hstrip, (int_unsigned_digits _ Hne Hs). reflexivity.
Qed.

(** [int] reads the digits that [str] prints for a positive number, *)
Lemma int_str_pos p : int (str_int (Z.pos p)) = Ok (Z.pos p).
Proof.
  unfold str_int. cbn [Z.to_int NilZero.string_of_int].
  rewrite string_of_pos, int_digits_string;
    [now rewrite decimal_of_pos | apply string_of_pos_nonempty
    | apply all_digits_uint].
Qed.

(** and the sign and the digits that it prints for a negative one. *)
Lemma int_str_neg p : int (str_int (Z.neg p)) = Ok (Z.neg p).
Proof.
  unfold str_int. cbn [Z.to_int NilZero.string_of_int].
  rewrite string_of_pos, int_minus_digits;
    [now rewrite decimal_of_pos | apply string_of_pos_nonempty
    | apply all_digits_uint].
Qed.

(** Two integers with the same printed form are equal. *)
Lemma str_int_inj z z' : str_int z = str_int z' -> z = z'.
Proof.
  assert (Hread : forall x, int (str_int x) = Ok x)
    by (intros [|p|p]; [reflexivity | apply int_str_pos | apply int_str_neg]).
  intros Heq. pose proof (Hread z) as Hz. rewrite Heq, Hread in Hz.
  congruence.
Qed.

Lemma str_int_nonneg_digits z :
  (0 <= z)%Z -> str_int z <> EmptyString /\ all_digits (str_int z) = true
                /\ decimal (str_int z) = z.
Proof.
  intros Hz. unfold str_int. destruct z as [|p|p]; [| |lia];
    cbn [Z.to_int NilZero.string_of_int].
  - repeat split. discriminate.
  - rewrite string_of_pos. split; [apply string_of_pos_nonempty|].
    split; [apply all_digits_uint | apply decimal_of_pos].
Qed.

End NumeralFacts.

(** ** More on the resolver: normalisation, membership, exceptions *)
Module ResolverFacts.
Import Py Logic PyFacts LogicFacts NumeralFacts.

(** *** Normalisation *)

Lemma lstrip_lower s : lstrip (lower s) = lower (lstrip s).
Proof.
  induction s as [|c r IH]; [reflexivity|]. cbn [lower lstrip].
  rewrite isspace_lower_char. destruct (isspace c); [exact IH | reflexivity].
Qed.

Lemma rstrip_lower s : rstrip (lower s) = lower (rstrip s).
Proof.
  induction s as [|c r IH]; [reflexivity|]. cbn [lower rstrip].
  rewrite isspace_lower_char, IH, lower_empty.
  destruct (isspace c && is_empty (rstrip r)); reflexivity.
Qed.

Lemma strip_lower s : strip (lower s) = lower (strip s).
Proof. unfold strip. now rewrite lstrip_lower, rstrip_lower. Qed.

Lemma lstrip_head s c r : lstrip s = String c r -> isspace c = false.
Proof.
  induction s as [|a q IH]; cbn [lstrip]; [discriminate|].
  destruct (isspace a) eqn:E; [exact IH|]. now intros [= <- _].
Qed.

Lemma rstrip_head s c r : rstrip s = String c r -> exists q, s = String c q.
Proof.
  destruct s as [|a q]; cbn [rstrip]; [discriminate|].
  destruct (isspace a && is_empty (rstrip q)); [discriminate|].
  intros [= <- _]. eauto.
Qed.

Lemma strip_head s c r : strip s = String c r -> isspace c = false.
Proof.
  unfold strip. intros (q & Hq)%rstrip_head. now apply lstrip_head in Hq.
Qed.

(** The words of a normalised identifier: none when it is empty, at least
    one otherwise. *)
Lemma normalised_words s :
  (lower (strip s) = EmptyString /\ split (lower (strip s)) = [])
  \/ (is_empty (lower (strip s)) = false /\
      exists first rest, split (lower (strip s)) = first :: rest).
Proof.
  destruct (strip s) as [|c r] eqn:E; [left; now split|]. right.
  split; [reflexivity|].
  pose proof (strip_head _ _ _ E) as Hc.
  assert (Hne : split (lower (String c r)) <> []).
  { apply split_not_whitespace. cbn. now rewrite isspace_lower_char, Hc. }
  destruct (split (lower (String c r))) as [|first rest]; [congruence | eauto].
Qed.

Section More.
Context `{Defaults}.

Lemma match_object_empty identifier context :
  lower (strip identifier) = EmptyString ->
  match_object identifier context = Ok [].
Proof. intros Hs. unfold match_object. now rewrite Hs. Qed.

(** The result of [match_object] depends on the identifier only through its
    normalised words: identifiers with the same words after trimming,
    lowering and splitting give the same outcome, so case and the amount of
    whitespace never matter. *)
Theorem match_object_normalises context :
  (forall a b,
     split (lower (strip a)) = split (lower (strip b)) ->
     match_object a context = match_object b context)
  /\ (forall a b, lower a = lower b ->
        match_object a context = match_object b context)
  /\ (forall a, match_object (lower a) context = match_object a context).
Proof.
  assert (Hwords : forall a b,
    split (lower (strip a)) = split (lower (strip b)) ->
    match_object a context = match_object b context).
  { intros a b Heq.
    destruct (normalised_words a) as [[Ha Hsa]|[_ (fa & ra & Hsa)]];
      destruct (normalised_words b) as [[Hb Hsb]|[_ (fb & rb & Hsb)]];
      try congruence.
    - now rewrite !match_object_empty.
    - rewrite (match_object_words _ _ _ _ Hsa), (match_object_words _ _ _ _ Hsb).
      assert (fa = fb /\ ra = rb) as [-> ->] by (split; congruence).
      reflexivity. }
  assert (Hcase : forall a b, lower a = lower b ->
    match_object a context = match_object b context).
  { intros a b Hab. apply Hwords. rewrite <- !strip_lower. now rewrite Hab. }
  split; [exact Hwords|]. split; [exact Hcase|].
  intros a. apply Hcase, lower_idemp.
Qed.

(** *** Where the returned objects come from *)

Lemma match_object_cases identifier context :
  match_object identifier context = Ok []
  \/ exists first rest,
       split (lower (strip identifier)) = first :: rest /\
       match_object identifier context =
         if bool_decide (first ∈ USER_ALIASES) then Ok [user context]
         else if bool_decide (first ∈ ROOM_ALIASES) then Ok [room context]
         else if MATCH_OBJECT_ID first then
           int (tail first) ≫= fun object_id =>
             with_id object_id (candidate_objects context)
         else scan (candidate_objects context) (first :: rest) [] [].
Proof.
  destruct (normalised_words identifier) as [[Hs _]|[_ (first & rest & Hw)]].
  - left. now apply match_object_empty.
  - right. exists first, rest. split; [exact Hw|].
    now apply match_object_words.
Qed.

(** [match_object] never makes objects up: whatever it returns is one of
    the context's own objects (the user, the room, an exit, another user or
    a thing). *)
Theorem match_object_members identifier context res :
  match_object identifier context = Ok res ->
  forall obj, obj ∈ res -> obj ∈ candidate_objects context.
Proof.
  intros Hres obj Hin.
  destruct (match_object_cases identifier context)
    as [Hnil|(first & rest & Hw & Hrun)].
  { rewrite Hnil in Hres. injection Hres as <-. inversion Hin. }
  rewrite Hrun in Hres. clear Hrun.
  destruct (bool_decide (first ∈ USER_ALIASES)).
  { injection Hres as <-. apply list_elem_of_singleton in Hin as ->.
    unfold candidate_objects. set_solver. }
  destruct (bool_decide (first ∈ ROOM_ALIASES)).
  { injection Hres as <-. apply list_elem_of_singleton in Hin as ->.
    unfold candidate_objects. set_solver. }
  destruct (MATCH_OBJECT_ID first).
  - destruct (int (tail first)) as [object_id|e];
      unfold mbind, result_bind in Hres; cbv beta iota in Hres; [|discriminate].
    apply with_id_ok in Hres. subst res.
    now apply list_elem_of_filter in Hin as [_ Hin].
  - apply (scan_ok _ (first :: rest) _ []) in Hres; [|reflexivity|discriminate].
    destruct Hres as (k & _ & ->).
    now apply list_elem_of_filter in Hin as [_ Hin].
Qed.

(** *** What the resolver can raise *)

Lemma int_raises s e : int s = Raise e -> e = ValueError.
Proof.
  unfold int. destruct (match strip s with
                        | String "+" r => int_unsigned r
                        | String "-" r => Z.opp <$> int_unsigned r
                        | _ => int_unsigned (strip s)
                        end); congruence.
Qed.

Lemma comprehension_lower_raises l e :
  comprehension value_lower l = Raise e -> e = AttributeError.
Proof.
  induction l as [|v r IH]; cbn [comprehension]; [discriminate|].
  destruct v; cbn; try congruence.
  destruct (comprehension value_lower r); cbn; [discriminate|].
  intros [= <-]. now apply IH.
Qed.

Lemma matches_name_raises name obj e :
  matches_name name obj = Raise e ->
  (e = AttributeError \/ e = TypeError) /\ ~ well_named obj.
Proof.
  intros Hraise. split.
  - unfold matches_name in Hraise.
    destruct (get obj NAME (VStr EmptyString)); cbn in Hraise;
      try (left; congruence).
    destruct (bool_decide _); [discriminate|].
    destruct (get obj ALIAS (VList [])) as [| | | s' | l]; cbn in Hraise;
      try (right; congruence).
    + destruct (comprehension value_lower (chars s')) eqn:E; cbn in Hraise.
      * destruct (bool_decide _); discriminate.
      * left. injection Hraise as <-. now apply comprehension_lower_raises in E.
    + destruct (comprehension value_lower l) eqn:E; cbn in Hraise.
      * destruct (bool_decide _); discriminate.
      * left. injection Hraise as <-. now apply comprehension_lower_raises in E.
  - intros (nm & als & Hn).
    rewrite (matches_name_named _ _ _ _ Hn) in Hraise. discriminate.
Qed.

Lemma with_id_raises object_id objs e :
  with_id object_id objs = Raise e ->
  e = KeyError /\ exists obj, obj ∈ objs /\ obj !! "id" = None.
Proof.
  induction objs as [|obj rest IH]; cbn [with_id]; [discriminate|].
  unfold getitem. destruct (obj !! "id") as [v|] eqn:E; cbn.
  - destruct (with_id object_id rest) as [found|e']; cbn; [discriminate|].
    intros [= <-]. destruct (IH eq_refl) as [-> (o & Hin & Ho)].
    split; [reflexivity|]. exists o. split; [now right | assumption].
  - intros [= <-]. split; [reflexivity|]. exists obj. split; [now left | assumption].
Qed.

Lemma collect_raises name objs acc e :
  collect name objs acc = Raise e ->
  exists obj, obj ∈ objs /\ matches_name name obj = Raise e.
Proof.
  revert acc. induction objs as [|obj rest IH]; intros acc; cbn [collect];
    [discriminate|].
  destruct (matches_name name obj) as [b|e'] eqn:E; cbn.
  - intros (o & Hin & Ho)%IH. exists o. split; [now right | assumption].
  - intros [= <-]. exists obj. split; [now left | assumption].
Qed.

Lemma scan_raises cands words wl acc e :
  scan cands words wl acc = Raise e ->
  exists name obj, obj ∈ cands /\ matches_name name obj = Raise e.
Proof.
  revert wl acc. induction words as [|w rest IH]; intros wl acc; cbn [scan];
    [discriminate|].
  destruct (collect _ cands acc) as [found|e'] eqn:E; cbn.
  - destruct found; [apply IH | discriminate].
  - intros [= <-]. apply collect_raises in E as (o & Hin & Ho). eauto.
Qed.

(** On a context whose objects are well typed the resolver returns a list,
    unless the id pattern has let through a word that [int] rejects. *)
Theorem match_object_returns identifier context :
  Forall well_named (candidate_objects context) ->
  Forall identified (candidate_objects context) ->
  (exists res, match_object identifier context = Ok res)
  \/ (match_object identifier context = Raise ValueError /\
      exists first rest,
        split (lower (strip identifier)) = first :: rest /\
        MATCH_OBJECT_ID first = true /\ int (tail first) = Raise ValueError).
Proof.
  intros Hnamed Hid. rewrite Forall_forall in Hnamed, Hid.
  destruct (match_object identifier context) as [res|e] eqn:E; [eauto|].
  right.
  destruct (match_object_cases identifier context)
    as [Hnil|(first & rest & Hw & Hrun)]; [congruence|].
  rewrite Hrun in E. clear Hrun.
  destruct (bool_decide (first ∈ USER_ALIASES)); [discriminate|].
  destruct (bool_decide (first ∈ ROOM_ALIASES)); [discriminate|].
  destruct (MATCH_OBJECT_ID first) eqn:Hm.
  - destruct (int (tail first)) as [object_id|e'] eqn:Hint;
      unfold mbind, result_bind in E; cbv beta iota in E.
    + apply with_id_raises in E as [_ (obj & Hin & Hobj)].
      destruct (Hid obj Hin) as [z Hz]. congruence.
    + injection E as <-. pose proof (int_raises _ _ Hint) as ->.
      split; [reflexivity|]. eauto 6.
  - apply scan_raises in E as (name & obj & Hin & Hraise).
    apply matches_name_raises in Hraise as [_ Hobj].
    destruct (Hobj (Hnamed obj Hin)).
Qed.

(** In the lookup by id one candidate without an ["id"] key makes the whole
    lookup raise, whatever the other candidates hold. *)
Lemma with_id_missing object_id objs obj :
  obj ∈ objs -> obj !! "id" = None -> with_id object_id objs = Raise KeyError.
Proof.
  intros Hin Hobj.
  induction Hin as [obj rest|obj o rest Hin IH]; cbn [with_id]; unfold getitem.
  - now rewrite Hobj.
  - destruct (o !! "id"); cbn; [|reflexivity].
    now rewrite (IH Hobj).
Qed.

(** In a lookup by id, one candidate without an id makes the call raise
    [KeyError], even when other candidates carry the identifier asked for. *)
Theorem match_object_missing_id identifier context first rest object_id obj :
  split (lower (strip identifier)) = first :: rest ->
  first ∉ USER_ALIASES -> first ∉ ROOM_ALIASES ->
  MATCH_OBJECT_ID first = true -> int (tail first) = Ok object_id ->
  obj ∈ candidate_objects context -> obj !! "id" = None ->
  match_object identifier context = Raise KeyError.
Proof.
  intros Hw Hu Hr Hm Hint Hin Hobj.
  rewrite (match_object_words _ _ _ _ Hw).
  rewrite !bool_decide_eq_false_2 by assumption.
  rewrite Hm, Hint. unfold mbind, result_bind. cbv beta iota.
  now apply (with_id_missing _ _ obj).
Qed.

(** A name that equals the display name is accepted before the aliases are
    read, so nothing about the aliases can make that call raise. *)
Theorem matches_name_by_name name obj nm :
  display_name obj = VStr nm -> same_nocase name nm ->
  matches_name name obj = Ok true.
Proof.
  intros Hnm Hsame. unfold matches_name.
  unfold display_name in Hnm. rewrite Hnm. cbn.
  unfold same_nocase in Hsame.
  now rewrite bool_decide_eq_true_2.
Qed.

(** *** Finding an object again by its printed identifier *)

Lemma append_nil_r (s : string) : s +:+ EmptyString = s.
Proof.
  induction s as [|c r IH]; [reflexivity|].
  change (String c (r +:+ EmptyString) = String c r). now rewrite IH.
Qed.

Lemma digit_not_upper c : isdigit c = true -> lower_char c = c.
Proof. each_char c; vm_compute; congruence. Qed.

Lemma lower_digits s : all_digits s = true -> lower s = s.
Proof.
  induction s as [|c r IH]; [reflexivity|]. cbn [all_digits lower].
  intros [Hc Hr]%andb_true_iff. now rewrite (digit_not_upper _ Hc), IH.
Qed.

Lemma split_from_digits cur s :
  all_digits s = true -> cur <> EmptyString ->
  split_from cur s = [cur +:+ s].
Proof.
  revert cur. induction s as [|c r IH]; intros cur Hs Hcur; cbn [split_from].
  - rewrite append_nil_r. destruct cur; [congruence | reflexivity].
  - cbn [all_digits] in Hs. apply andb_true_iff in Hs as [Hc Hr].
    rewrite (digit_not_space _ Hc), IH; [|assumption|destruct cur; discriminate].
    now rewrite append_assoc.
Qed.

Lemma id_word_normal ds :
  all_digits ds = true ->
  split (lower (strip (String "#" ds))) = [String "#" ds].
Proof.
  intros Hds.
  assert (Hstrip : strip (String "#" ds) = String "#" ds).
  { unfold strip. cbn [lstrip]. change (isspace "#") with false. cbn [rstrip].
    change (isspace "#") with false. now rewrite rstrip_digits. }
  rewrite Hstrip. cbn [lower]. change (lower_char "#") with "#"%char.
  rewrite (lower_digits _ Hds). unfold split. cbn [split_from].
  change (isspace "#") with false. cbn iota.
  now rewrite split_from_digits.
Qed.

Lemma get_attribute_value_int obj attribute z :
  obj !! attribute = Some (VInt z) ->
  get_attribute_value obj attribute = str_int z.
Proof.
  intros Hz. unfold get_attribute_value, get. rewrite Hz.
  now rewrite bool_decide_eq_true_2 by eauto.
Qed.

(** The text [#] followed by the identifier that [get_attribute_value]
    prints leads [match_object] back to the object, and to objects with that
    identifier only. *)
Theorem match_object_finds_printed_id context obj z :
  (0 <= z)%Z ->
  obj !! "id" = Some (VInt z) ->
  obj ∈ candidate_objects context ->
  Forall identified (candidate_objects context) ->
  let word := String "#" (get_attribute_value obj "id") in
  MATCH_OBJECT_ID word = true ->
  word ∉ USER_ALIASES -> word ∉ ROOM_ALIASES ->
  exists res,
    match_object word context = Ok res /\ obj ∈ res /\
    forall o, o ∈ res <->
      o ∈ candidate_objects context /\ object_id_of o = Some z.
Proof.
  intros Hz Hid Hin Hall word. subst word.
  rewrite (get_attribute_value_int _ _ _ Hid).
  destruct (str_int_nonneg_digits z Hz) as (Hne & Hdigits & Hdec).
  intros Hm Hu Hr.
  exists (filter (fun o => object_id_of o = Some z) (candidate_objects context)).
  split.
  - rewrite (match_object_words _ _ _ _ (id_word_normal _ Hdigits)).
    rewrite !bool_decide_eq_false_2 by assumption.
    rewrite Hm. cbn [tail]. rewrite (int_digits_string _ Hne Hdigits), Hdec.
    unfold mbind, result_bind. cbv beta iota.
    now apply with_id_identified.
  - split.
    + apply list_elem_of_filter. split; [|assumption].
      unfold object_id_of. now rewrite Hid.
    + intros o. rewrite list_elem_of_filter. tauto.
Qed.

End More.

(** *** In the sample world *)

#[local] Existing Instance Sample.defaults.

Lemma match_object_members_example :
  Sample.doom ∈ candidate_objects Sample.context.
Proof.
  apply (match_object_members "sword" Sample.context
           [Sample.sword; Sample.doom]).
  - vm_compute. reflexivity.
  - set_solver.
Defined.

Lemma match_object_returns_example :
  (exists res, match_object "red sword" Sample.context = Ok res)
  \/ (match_object "red sword" Sample.context = Raise ValueError /\
      exists first rest,
        split (lower (strip "red sword")) = first :: rest /\
        MATCH_OBJECT_ID first = true /\ int (tail first) = Raise ValueError).
Proof.
  apply (match_object_returns "red sword" Sample.context).
  - apply sample_well_named.
  - apply sample_identified.
Defined.

(** A room without an identifier. *)
Definition anonymous : Context :=
  {| user := Sample.alice; room := {[ "name" := VStr "Void" ]};
     exits := []; users := []; things := [Sample.sword] |}.

Lemma match_object_missing_id_example :
  match_object "#5" anonymous = Raise KeyError.
Proof.
  apply (match_object_missing_id "#5" anonymous "#5" [] 5
           {[ "name" := VStr "Void" ]}).
  - vm_compute. reflexivity.
  - compute_done.
  - compute_done.
  - reflexivity.
  - reflexivity.
  - unfold candidate_objects, anonymous. cbn. set_solver.
  - reflexivity.
Defined.

Lemma matches_name_by_name_example :
  matches_name "VOID" {[ "name" := VStr "Void"; "alias" := VInt 3 ]} = Ok true.
Proof.
  apply (matches_name_by_name "VOID" _ "Void"); reflexivity.
Defined.

Lemma match_object_finds_printed_id_example :
  exists res,
    match_object (String "#" (get_attribute_value Sample.sword "id"))
      Sample.context = Ok res /\ Sample.sword ∈ res /\
    forall o, o ∈ res <->
      o ∈ candidate_objects Sample.context /\ object_id_of o = Some 5%Z.
Proof.
  apply (match_object_finds_printed_id Sample.context Sample.sword 5).
  - lia.
  - reflexivity.
  - unfold candidate_objects, Sample.context. cbn. set_solver.
  - apply sample_identified.
  - vm_compute. reflexivity.
  - compute_done.
  - compute_done.
Defined.

End ResolverFacts.

(** ** The resolver hands out a list of its own *)
Module StoreMore.
Import Py Store StoreFacts.

(** A reference to a list that the store [h0] does not hold. *)
Definition brand_new (h0 : heap) (v : val) : Prop :=
  exists l, v = Ref l /\ h0 !! l = None.

Lemma brand_new_outside h0 v : brand_new h0 v -> outside h0 v.
Proof. intros (l & -> & Hl) l' [= <-]. exact Hl. Qed.

Lemma keeps_new_list h0 c : keeps h0 (new c) (brand_new h0).
Proof.
  intros h Hh. destruct (keeps_new h0 c h Hh) as [Hun Hout].
  split; [exact Hun|]. intros a Ha.
  pose proof (Hout a Ha) as Hfresh. unfold new in Ha. cbn in Ha.
  injection Ha as <-. eexists. split; [reflexivity|]. now apply Hfresh.
Qed.

Section Fresh.
Context `{Logic.Defaults} (h0 : heap).

Lemma keeps_scan_list candidate_objects words word_list matched_objects :
  outside h0 word_list -> brand_new h0 matched_objects ->
  keeps h0 (scan candidate_objects words word_list matched_objects)
    (brand_new h0).
Proof.
  intros Hwl Hmo. pose proof (brand_new_outside _ _ Hmo) as Hout.
  induction words as [|word rest IH]; cbn [scan].
  - now apply keeps_ret.
  - eapply keeps_bind; [now apply keeps_append | intros ? _].
    eapply keeps_bind; [apply keeps_elements | intros ws _].
    eapply keeps_bind; [apply keeps_lift | intros ss _].
    eapply keeps_bind; [apply keeps_elements | intros objs _].
    eapply keeps_bind; [now apply keeps_collect | intros ? _].
    eapply keeps_bind; [apply keeps_elements | intros found _].
    destruct found; [exact IH | now apply keeps_ret].
Qed.

Lemma keeps_match_object_list identifier context :
  keeps h0 (match_object identifier context) (brand_new h0).
Proof.
  unfold match_object.
  destruct (is_empty _); [apply keeps_new_list|].
  destruct (split _) as [|first rest].
  { intros h Hh. split; [exact Hh | discriminate]. }
  destruct (bool_decide (first ∈ Logic.USER_ALIASES)).
  { eapply keeps_bind; [apply keeps_getitem | intros u _; apply keeps_new_list]. }
  destruct (bool_decide (first ∈ Logic.ROOM_ALIASES)).
  { eapply keeps_bind; [apply keeps_getitem | intros r _; apply keeps_new_list]. }
  eapply keeps_bind; [apply keeps_getitem | intros u _].
  eapply keeps_bind; [apply keeps_getitem | intros r _].
  eapply keeps_bind; [apply keeps_new | intros pair _].
  eapply keeps_bind; [apply keeps_getitem | intros es _].
  eapply keeps_bind; [apply keeps_concat | intros l1 _].
  eapply keeps_bind; [apply keeps_getitem | intros us _].
  eapply keeps_bind; [apply keeps_concat | intros l2 _].
  eapply keeps_bind; [apply keeps_getitem | intros ts _].
  eapply keeps_bind; [apply keeps_concat | intros candidate_objects _].
  destruct (Logic.MATCH_OBJECT_ID first).
  - eapply keeps_bind; [apply keeps_lift | intros object_id _].
    eapply keeps_bind; [apply keeps_elements | intros objs _].
    eapply keeps_bind; [apply keeps_new_list | intros out Hout].
    eapply keeps_bind;
      [apply keeps_with_id; now apply brand_new_outside | intros ? _].
    now apply keeps_ret.
  - eapply keeps_bind; [apply keeps_new_list | intros matched_objects Hmo].
    eapply keeps_bind; [apply keeps_new | intros word_list Hwl].
    now apply keeps_scan_list.
Qed.

End Fresh.

(** The list [match_object] returns is a new one: it is none of the lists
    that were in the store before the call, so a caller who changes the
    result changes neither the context nor an earlier result. *)
Theorem match_object_returns_new_list `{Logic.Defaults} identifier context h v :
  result_of (match_object identifier context) h = Ok v ->
  exists l, v = Ref l /\ h !! l = None.
Proof.
  intros Hres.
  destruct (keeps_match_object_list h identifier context h (unchanged_refl h))
    as [_ Hnew].
  now apply Hnew.
Qed.

#[local] Existing Instance Sample.defaults.

Lemma match_object_returns_new_list_example :
  exists l, Ref 13 = Ref l /\ Sample.store !! l = None.
Proof.
  apply (match_object_returns_new_list "Sword" (Ref 1) Sample.store (Ref 13)).
  vm_compute. reflexivity.
Defined.

(** *** Which exceptions the resolver raises, and why *)








Section Raising.
Context {A B : Type} (h0 : heap).





End Raising.

Section Primitives.
Context (h0 : heap).








End Primitives.

Section Resolver.
Context `{Logic.Defaults} (h0 : heap).






End Resolver.



Section Causes.
Context `{Logic.Defaults} (h0 : heap).





End Causes.



End StoreMore.

(** ** Facts about [emit_to_room] *)
Module MessagingFacts.
Import Py Logic Messaging NumeralFacts.

Section Room.
Context `{Collaborators}.

(** A user record carries an identifier. *)
Definition has_id (o : Object) : Prop :=
  is_user o = true -> is_Some (o !! "id").

(** A user record carries an integer identifier. *)
Definition has_int_id (o : Object) : Prop :=
  is_user o = true -> exists z, o !! "id" = Some (VInt z).

(** One turn of the loop, for a value that has an identifier if it is a
    user. *)
Lemma deliver_cons o rest exclude message :
  has_id o ->
  deliver (o :: rest) exclude message =
    let '(later, r) := deliver rest exclude message in
    ((delivery message <$> filter (recipient exclude) [o]) ++ later, r).
Proof.
  intros Ho. cbn [deliver]. fold (is_user o).
  rewrite filter_cons, filter_nil.
  destruct (is_user o) eqn:Eu.
  - destruct (Ho Eu) as [v Hv]. unfold getitem. rewrite Hv.
    destruct (excluded v exclude) eqn:Ex; cbn [negb].
    + rewrite decide_False.
      2: { unfold recipient. rewrite Eu, Hv, Ex. intros []. }
      now destruct (deliver rest exclude message).
    + rewrite decide_True.
      2: { unfold recipient. now rewrite Eu, Hv, Ex. }
      destruct (deliver rest exclude message). cbn.
      unfold delivery, get. now rewrite Hv.
  - rewrite decide_False.
    2: { unfold recipient. rewrite Eu. intros []. }
    now destruct (deliver rest exclude message).
Qed.

Lemma deliver_all values exclude message :
  Forall has_id values ->
  deliver values exclude message =
    (delivery message <$> filter (recipient exclude) values, Ok tt).
Proof.
  induction 1 as [|o rest Ho _ IH]; [reflexivity|].
  rewrite (deliver_cons o rest exclude message Ho), IH.
  now rewrite (filter_cons _ o rest), filter_cons, filter_nil; case_decide.
Qed.

Lemma deliver_stops before bad after exclude message :
  Forall has_id before -> is_user bad = true -> bad !! "id" = None ->
  deliver (before ++ bad :: after) exclude message =
    (delivery message <$> filter (recipient exclude) before, Raise KeyError).
Proof.
  intros Hbefore Hu Hbad.
  induction Hbefore as [|o rest Ho _ IH].
  - cbn [app deliver]. fold (is_user bad). rewrite Hu. unfold getitem.
    now rewrite Hbad.
  - change ((o :: rest) ++ bad :: after) with (o :: (rest ++ bad :: after)).
    rewrite (deliver_cons o _ exclude message Ho), IH.
    now rewrite (filter_cons _ o rest), filter_cons, filter_nil; case_decide.
Qed.

Lemma excluded_int z exclude : excluded (VInt z) exclude = true <-> z ∈ exclude.
Proof.
  unfold excluded. rewrite existsb_exists. split.
  - intros (e & Hin & He). cbn in He. apply bool_decide_eq_true in He as ->.
    now apply list_elem_of_In.
  - intros Hin. exists z. split; [now apply list_elem_of_In|].
    cbn. now apply bool_decide_eq_true.
Qed.

(** [emit_to_room] sends one message to each user of the room that is not
    excluded, in the order of the room's contents, and the same rendered
    text to all of them; values that are not users are skipped without
    their identifier being read. *)
Theorem emit_to_room_delivers room_id exclude message contents :
  get_contents room_id = Ok contents ->
  Forall has_id (snd <$> contents) ->
  emit_to_room room_id exclude message =
    (delivery message <$> filter (recipient exclude) (snd <$> contents),
     Ok tt).
Proof.
  intros Hc Hall. unfold emit_to_room. rewrite Hc. now apply deliver_all.
Qed.

(** Nothing is published on the channel of an excluded user, when the users
    of the room carry integer identifiers. *)
Theorem emit_to_room_spares_excluded room_id exclude message contents z output :
  get_contents room_id = Ok contents ->
  Forall has_int_id (snd <$> contents) ->
  z ∈ exclude ->
  Published (str (VInt z)) output ∉ (emit_to_room room_id exclude message).1.
Proof.
  intros Hc Hall Hz. unfold emit_to_room. rewrite Hc.
  rewrite deliver_all.
  2: { eapply Forall_impl; [exact Hall|]. intros o Ho Hu.
       destruct (Ho Hu) as [i Hi]. eauto. }
  cbn [fst]. intros Hin.
  apply list_elem_of_fmap in Hin as (o & Heq & Ho).
  apply list_elem_of_filter in Ho as [Hrec Hmem].
  rewrite Forall_forall in Hall. specialize (Hall o Hmem).
  unfold recipient in Hrec. apply Is_true_true, andb_true_iff in Hrec as [Hu Hid].
  destruct (Hall Hu) as [i Hi]. rewrite Hi in Hid.
  unfold delivery, get in Heq. rewrite Hi in Heq. cbn in Heq.
  injection Heq as Hch _. apply str_int_inj in Hch. subst i.
  apply negb_true_iff in Hid.
  apply (proj2 (excluded_int z exclude)) in Hz. congruence.
Qed.

(** A user record without an identifier stops the loop with [KeyError]:
    the users before it have their message, the values after it are never
    looked at. *)
Theorem emit_to_room_stops_at_missing_id
    room_id exclude message contents before bad after :
  get_contents room_id = Ok contents ->
  snd <$> contents = before ++ bad :: after ->
  Forall has_id before -> is_user bad = true -> bad !! "id" = None ->
  emit_to_room room_id exclude message =
    (delivery message <$> filter (recipient exclude) before, Raise KeyError).
Proof.
  intros Hc Hsplit Hbefore Hu Hbad. unfold emit_to_room. rewrite Hc, Hsplit.
  now apply deliver_stops.
Qed.

End Room.

#[local] Existing Instance Sample.lobby.

Lemma player_has_int_id i : has_int_id (Sample.player i).
Proof. intros _. exists i. reflexivity. Qed.

Lemma player_has_id i : has_id (Sample.player i).
Proof. intros _. exists (VInt i). reflexivity. Qed.

Lemma lamp_has_int_id : has_int_id Sample.lamp.
Proof. intros Hu. vm_compute in Hu. discriminate. Qed.

Lemma lamp_has_id : has_id Sample.lamp.
Proof. intros Hu. vm_compute in Hu. discriminate. Qed.

Lemma emit_to_room_delivers_example :
  emit_to_room 1 [2%Z] "hi" =
    ([Published "1" "<p>hi</p>"; Published "3" "<p>hi</p>"], Ok tt).
Proof.
  rewrite (@emit_to_room_delivers Sample.lobby 1 [2%Z] "hi"
             [(VInt 1, Sample.player 1); (VInt 7, Sample.lamp); (VInt 2, Sample.player 2);
              (VInt 3, Sample.player 3)] eq_refl).
  - vm_compute. reflexivity.
  - repeat constructor;
      first [apply player_has_id | apply lamp_has_id].
Defined.

Lemma emit_to_room_spares_excluded_example :
  Published (str (VInt 2)) "<p>hi</p>" ∉ (emit_to_room 1 [2%Z] "hi").1.
Proof.
  apply (@emit_to_room_spares_excluded Sample.lobby 1 [2%Z] "hi"
           [(VInt 1, Sample.player 1); (VInt 7, Sample.lamp); (VInt 2, Sample.player 2);
            (VInt 3, Sample.player 3)] 2 "<p>hi</p>" eq_refl).
  - repeat constructor;
      first [apply player_has_int_id | apply lamp_has_int_id].
  - apply list_elem_of_here.
Defined.

Lemma emit_to_room_stops_at_missing_id_example :
  emit_to_room 2 [] "hi" = ([Published "1" "<p>hi</p>"], Raise KeyError).
Proof.
  rewrite (@emit_to_room_stops_at_missing_id Sample.lobby 2 [] "hi"
             [(VInt 1, Sample.player 1); (VInt 8, Sample.ghost); (VInt 3, Sample.player 3)]
             [Sample.player 1] Sample.ghost [Sample.player 3] eq_refl eq_refl).
  - vm_compute. reflexivity.
  - repeat constructor. apply player_has_id.
  - vm_compute. reflexivity.
  - reflexivity.
Defined.

End MessagingFacts.
